(** * Background-sync queue store and network-first strategy

    A shallow embedding of

      - [packages/sync/src/store.ts]  (class [BackgroundSyncQueueStore]) and
      - [packages/sw/src/cache/NetworkFirst.ts]  (class [NetworkFirst]),

    together with the properties of the two classes that the design
    document states.  Asynchronous methods are embedded as computations
    in a small state-and-exception monad: an [await] is a bind, a
    rejected promise is a [Throw], and a promise that never settles is
    [Hang]. *)

From Stdlib Require Import ZArith QArith String List Bool Lia Sorted.
From stdpp Require Import base option list gmap strings pretty.

Local Open Scope string_scope.
Local Open Scope list_scope.
Local Open Scope Z_scope.

(** ** Values shared by both classes *)

(** A JavaScript error object: the name of the constructor that built it
    and its message. *)
Record JsError := mkError { err_name : string; err_message : string }.

(** [new Error(msg)]. *)
Definition Error (msg : string) : JsError := mkError "Error" msg.

(** How the evaluation of an (async) function body ends. *)
Inductive Completion (A : Type) : Type :=
| Return (a : A)
| Throw (e : JsError)
| Hang.
Arguments Return {A} a.
Arguments Throw {A} e.
Arguments Hang {A}.

(** Async code threads a state of type [S] (the store, or the trace of
    calls made so far) and may throw or hang; the state reached is kept
    in every case. *)
Definition M (S A : Type) : Type := S -> Completion A * S.

Definition ret {S A} (a : A) : M S A := fun s => (Return a, s).

Definition throw {S A} (e : JsError) : M S A := fun s => (Throw e, s).

Definition lift {S A} (c : Completion A) : M S A := fun s => (c, s).

Definition bind {S A B} (m : M S A) (k : A -> M S B) : M S B :=
  fun s =>
    match m s with
    | (Return a, s') => k a s'
    | (Throw e, s') => (Throw e, s')
    | (Hang, s') => (Hang, s')
    end.

(** [try { body } catch (error) { handler }] *)
Definition try_catch {S A} (body : M S A) (handler : JsError -> M S A) : M S A :=
  fun s =>
    match body s with
    | (Throw e, s') => handler e s'
    | r => r
    end.

Declare Scope js_scope.
Delimit Scope js_scope with js.
Notation "x <- m ;; k" := (bind m (fun x => k))
  (at level 100, m at next level, right associativity) : js_scope.
Notation "m ;;; k" := (bind m (fun _ => k))
  (at level 100, right associativity) : js_scope.
Local Open Scope js_scope.

(** ** [store.ts]: the ordered queue facade *)

Module QueueStore.

Section WithPayload.

(** The part of an entry the store never looks at ([requestData],
    [timestamp], [metadata]). *)
Context {Payload : Type}.

(** [UnidentifiedQueueStoreEntry]: the object a caller hands to
    [pushEntry]/[unshiftEntry]; [id] and [queueName] are optional
    properties. *)
Record UnidentifiedQueueStoreEntry := mkUnidentified {
  u_id : option Z;
  u_queueName : option string;
  u_payload : Payload
}.

(** [BackgroundSyncQueueStoreEntry]: a record as the database returns it;
    its [id] is the key under which it is stored.  Ids are integers
    (negative ones included), far from the range where a JavaScript
    number stops being exact. *)
Record BackgroundSyncQueueStoreEntry := mkEntry {
  e_id : Z;
  e_queueName : option string;
  e_payload : Payload
}.

(** *** The database behind the facade *)

(** Modelled from the spec: [BackgroundSyncQueueDb] ([db.ts]) is not part
    of the sources at hand.  The design document describes it as one
    object store shared by all queue names, keyed by an integer id and
    kept in ascending id order, with an auto-increment counter that is
    never reused.  [db_entries] is the content of the object store in key
    order, [db_nextId] the counter. *)
Record BackgroundSyncQueueDb := mkDb {
  db_entries : list BackgroundSyncQueueStoreEntry;
  db_nextId : Z
}.

(** Modelled from the spec: a database just created.  The design
    document leaves the first value of the counter open; it is 1 here,
    as for the key generator of an IndexedDB object store. *)
Definition emptyDb : BackgroundSyncQueueDb := mkDb [] 1.

(** Modelled from the spec: whether an id is in use, and whether an
    entry belongs to a queue name (the index on [queueName]). *)
Definition hasId (k : Z) (l : list BackgroundSyncQueueStoreEntry) : bool :=
  existsb (fun e => e_id e =? k) l.

Definition hasQueueName (name : string) (e : BackgroundSyncQueueStoreEntry) : bool :=
  match e_queueName e with
  | Some n => String.eqb n name
  | None => false
  end.

(** Modelled from the spec: the place of a new record in the key-ordered
    object store. *)
Fixpoint insertByKey (e : BackgroundSyncQueueStoreEntry)
    (l : list BackgroundSyncQueueStoreEntry) : list BackgroundSyncQueueStoreEntry :=
  match l with
  | [] => [e]
  | x :: r => if e_id e <? e_id x then e :: x :: r else x :: insertByKey e r
  end.

(** The state the facade's methods run in: the objects of the caller,
    addressed by reference, and the shared database. *)
Definition loc := positive.

Record State := mkState {
  heap : gmap loc UnidentifiedQueueStoreEntry;
  db : BackgroundSyncQueueDb
}.

Definition StorageError (msg : string) : JsError := mkError "StorageError" msg.

(** Modelled from the spec: [addEntry(entry)] takes the id of the entry
    when it has one and the next value of the counter otherwise, and
    stores a copy of the entry under that id.  The counter stays above
    every id issued.  A second record under an id already taken aborts
    the transaction, which surfaces as a [StorageError]. *)
Definition db_addEntry (entry : UnidentifiedQueueStoreEntry)
    (d : BackgroundSyncQueueDb) : Completion unit * BackgroundSyncQueueDb :=
  let k := match u_id entry with Some k => k | None => db_nextId d end in
  if hasId k (db_entries d)
  then (Throw (StorageError "transaction aborted"), d)
  else (Return tt,
        mkDb (insertByKey (mkEntry k (u_queueName entry) (u_payload entry)) (db_entries d))
             (Z.max (db_nextId d) (k + 1))).

(** Modelled from the spec: [getFirstEntryId()], the smallest id stored
    across all queue names, which is the first key of the store. *)
Definition db_getFirstEntryId (d : BackgroundSyncQueueDb) : option Z :=
  match db_entries d with
  | [] => None
  | e :: _ => Some (e_id e)
  end.

(** Modelled from the spec: [getAllEntriesByQueueName(name)], all
    matching entries in ascending id order. *)
Definition db_getAllEntriesByQueueName (name : string) (d : BackgroundSyncQueueDb)
    : list BackgroundSyncQueueStoreEntry :=
  List.filter (hasQueueName name) (db_entries d).

(** Modelled from the spec: the entry with the least id among those of
    the queue name. *)
Definition db_getFirstEntryByQueueName (name : string) (d : BackgroundSyncQueueDb)
    : option BackgroundSyncQueueStoreEntry :=
  List.head (db_getAllEntriesByQueueName name d).

(** Modelled from the spec: the entry with the greatest id among those of
    the queue name. *)
Definition db_getLastEntryByQueueName (name : string) (d : BackgroundSyncQueueDb)
    : option BackgroundSyncQueueStoreEntry :=
  List.last (List.map Some (db_getAllEntriesByQueueName name d)) None.

(** Modelled from the spec: [getEntryCountByQueueName(name)]. *)
Definition db_getEntryCountByQueueName (name : string) (d : BackgroundSyncQueueDb) : nat :=
  List.length (db_getAllEntriesByQueueName name d).

(** Modelled from the spec: [deleteEntry(id)] removes the entry with that
    id if present and does nothing otherwise. *)
Definition db_deleteEntry (k : Z) (d : BackgroundSyncQueueDb) : BackgroundSyncQueueDb :=
  mkDb (List.filter (fun e => negb (e_id e =? k)) (db_entries d)) (db_nextId d).

(** The calls [await this._queueDb.f(...)]: the operations above, run
    on the database of the state. *)
Definition addEntry (entry : UnidentifiedQueueStoreEntry) : M State unit :=
  fun s => let '(r, d) := db_addEntry entry (db s) in (r, mkState (heap s) d).

Definition getFirstEntryId : M State (option Z) :=
  fun s => (Return (db_getFirstEntryId (db s)), s).

Definition getFirstEntryByQueueName (name : string) : M State (option BackgroundSyncQueueStoreEntry) :=
  fun s => (Return (db_getFirstEntryByQueueName name (db s)), s).

Definition getLastEntryByQueueName (name : string) : M State (option BackgroundSyncQueueStoreEntry) :=
  fun s => (Return (db_getLastEntryByQueueName name (db s)), s).

Definition getAllEntriesByQueueName (name : string) : M State (list BackgroundSyncQueueStoreEntry) :=
  fun s => (Return (db_getAllEntriesByQueueName name (db s)), s).

Definition getEntryCountByQueueName (name : string) : M State nat :=
  fun s => (Return (db_getEntryCountByQueueName name (db s)), s).

(** *** Operations on the caller's object *)

Definition TypeError (msg : string) : JsError := mkError "TypeError" msg.

(** A property write or delete on the object behind a reference.  A
    reference to nothing is [undefined], on which both throw. *)
Definition update (entry : loc) (f : UnidentifiedQueueStoreEntry -> UnidentifiedQueueStoreEntry)
    : M State unit :=
  fun s =>
    match heap s !! entry with
    | Some o => (Return tt, mkState (<[entry := f o]> (heap s)) (db s))
    | None => (Throw (TypeError "entry is undefined"), s)
    end.

Definition read (entry : loc) : M State UnidentifiedQueueStoreEntry :=
  fun s =>
    match heap s !! entry with
    | Some o => (Return o, s)
    | None => (Throw (TypeError "entry is undefined"), s)
    end.

(** [delete entry.id] *)
Definition delete_id (o : UnidentifiedQueueStoreEntry) : UnidentifiedQueueStoreEntry :=
  mkUnidentified None (u_queueName o) (u_payload o).

(** [entry.id = k] *)
Definition set_id (k : Z) (o : UnidentifiedQueueStoreEntry) : UnidentifiedQueueStoreEntry :=
  mkUnidentified (Some k) (u_queueName o) (u_payload o).

(** [entry.queueName = name] *)
Definition set_queueName (name : string) (o : UnidentifiedQueueStoreEntry)
    : UnidentifiedQueueStoreEntry :=
  mkUnidentified (u_id o) (Some name) (u_payload o).

(** The condition of [if (firstId)]: [undefined] and [0] are falsy, every
    other integer is truthy. *)
Definition truthy (firstId : option Z) : bool :=
  match firstId with
  | Some k => negb (k =? 0)
  | None => false
  end.

(** The [id] property of the caller's object after the branch on
    [firstId] in [unshiftEntry]. *)
Definition unshift_id (firstId : option Z) : option Z :=
  if truthy firstId then Some (default 0 firstId - 1) else None.

(** *** The methods of [BackgroundSyncQueueStore]

    An instance is its [_queueName]; every instance opens the same
    database. *)

Definition pushEntry (_queueName : string) (entry : loc) : M State unit :=
  update entry delete_id ;;;
  update entry (set_queueName _queueName) ;;;
  o <- read entry ;;
  addEntry o.

(** [firstId - 1] is a subtraction of JavaScript numbers; it is the
    integer subtraction written here for a least id above [-2^53] and
    up to [2^53]. *)
Definition unshiftEntry (_queueName : string) (entry : loc) : M State unit :=
  firstId <- getFirstEntryId ;;
  (if truthy firstId
   then update entry (set_id (default 0 firstId - 1))
   else update entry delete_id) ;;;
  update entry (set_queueName _queueName) ;;;
  o <- read entry ;;
  addEntry o.

Definition deleteEntry (id : Z) : M State unit :=
  fun s => (Return tt, mkState (heap s) (db_deleteEntry id (db s))).

Definition _removeEntry (entry : option BackgroundSyncQueueStoreEntry)
    : M State (option BackgroundSyncQueueStoreEntry) :=
  (match entry with
   | Some e => deleteEntry (e_id e)
   | None => ret tt
   end) ;;;
  ret entry.

Definition popEntry (_queueName : string) : M State (option BackgroundSyncQueueStoreEntry) :=
  e <- getLastEntryByQueueName _queueName ;;
  _removeEntry e.

Definition shiftEntry (_queueName : string) : M State (option BackgroundSyncQueueStoreEntry) :=
  e <- getFirstEntryByQueueName _queueName ;;
  _removeEntry e.

Definition getAll (_queueName : string) : M State (list BackgroundSyncQueueStoreEntry) :=
  getAllEntriesByQueueName _queueName.

Definition size (_queueName : string) : M State nat :=
  getEntryCountByQueueName _queueName.

(** [n] calls of the same method, one after the other, with their results. *)
Fixpoint times {A} (n : nat) (m : M State A) : M State (list A) :=
  match n with
  | O => ret []
  | S n' => a <- m ;; r <- times n' m ;; ret (a :: r)
  end.

(** The invariant of the object store: keys ascend strictly, and the
    counter is above every key in use. *)
Definition sorted_ids (l : list BackgroundSyncQueueStoreEntry) : Prop :=
  StronglySorted (fun a b => e_id a < e_id b) l.

Definition db_wf (d : BackgroundSyncQueueDb) : Prop :=
  sorted_ids (db_entries d) /\ Forall (fun e => e_id e < db_nextId d) (db_entries d).

(** A queue name with no entry in the store. *)
Definition queue_empty (name : string) (d : BackgroundSyncQueueDb) : Prop :=
  db_getAllEntriesByQueueName name d = [].

End WithPayload.

Arguments UnidentifiedQueueStoreEntry : clear implicits.
Arguments BackgroundSyncQueueStoreEntry : clear implicits.
Arguments BackgroundSyncQueueDb : clear implicits.
Arguments State : clear implicits.

(** Four objects of a caller, with a text as payload. *)
Definition demo_heap : gmap loc (UnidentifiedQueueStoreEntry string) :=
  <[1%positive := mkUnidentified (Some 7) (Some "other") "x"]>
  (<[2%positive := mkUnidentified None None "y"]>
  (<[3%positive := mkUnidentified None None "a"]>
  (<[4%positive := mkUnidentified None None "b"]> ∅))).

(** The caller's objects next to a database just created. *)
Definition demo_fresh : State string := mkState demo_heap emptyDb.

(** A store whose only entry belongs to queue ["X"] and has the id 0. *)
Definition demo_db_zero : BackgroundSyncQueueDb string :=
  mkDb [mkEntry 0 (Some "X") "y"] 2.

Definition demo_zero : State string := mkState demo_heap demo_db_zero.

(** A store with two entries of queue ["X"] and one of queue ["Y"]. *)
Definition demo_db_three : BackgroundSyncQueueDb string :=
  mkDb [mkEntry 1 (Some "X") "x1"; mkEntry 2 (Some "Y") "y2"; mkEntry 3 (Some "X") "x3"] 4.

Definition demo_three : State string := mkState demo_heap demo_db_three.

(** *** Sequences of calls *)

Section Calls.

Context {Payload : Type}.

(** What a user of the class does, one step at a time: a call of a
    method of the facade for some queue name, or a write to one of its
    own objects between two calls. *)
Inductive Call : Type :=
| Call_pushEntry (queueName : string) (entry : loc)
| Call_unshiftEntry (queueName : string) (entry : loc)
| Call_popEntry (queueName : string)
| Call_shiftEntry (queueName : string)
| Call_getAll (queueName : string)
| Call_size (queueName : string)
| Call_deleteEntry (queueName : string) (id : Z)
| Caller_writes (entry : loc) (o : UnidentifiedQueueStoreEntry Payload).

(** The state a step leaves behind, whether the call returned or threw. *)
Definition after_call (c : Call) (s : State Payload) : State Payload :=
  match c with
  | Call_pushEntry q entry => (pushEntry q entry s).2
  | Call_unshiftEntry q entry => (unshiftEntry q entry s).2
  | Call_popEntry q => (popEntry q s).2
  | Call_shiftEntry q => (shiftEntry q s).2
  | Call_getAll q => (getAll q s).2
  | Call_size q => (size q s).2
  | Call_deleteEntry _ id => (deleteEntry id s).2
  | Caller_writes entry o => mkState (<[entry := o]> (heap s)) (db s)
  end.

Definition after_calls (cs : list Call) (s : State Payload) : State Payload :=
  List.fold_left (fun s c => after_call c s) cs s.

(** What [n] steps on a fresh database can have made of the store: it is
    well formed, the counter has moved at most [n] times from 1, no id
    lies [n] or more below 0, and every entry has a queue name. *)
Definition within (n : Z) (s : State Payload) : Prop :=
  db_wf (db s)
  /\ 1 <= db_nextId (db s) <= 1 + n
  /\ Forall (fun e => - n < e_id e /\ e_queueName e <> None) (db_entries (db s)).

End Calls.

Arguments Call : clear implicits.

End QueueStore.

(** ** [NetworkFirst.ts]: the network-first strategy *)

Module NetworkFirst.

(** A JavaScript [number] as far as the strategy looks at one: a finite
    value (as a rational; rounding plays no part in what follows) or one
    of the three special values. *)
Inductive number : Type :=
| Finite (q : Q)
| Infinity
| NegInfinity
| NaN.

(** [n !== Infinity] *)
Definition neq_Infinity (n : number) : bool :=
  match n with
  | Infinity => false
  | _ => true
  end.

(** [n * 1000] *)
Definition mul_1000 (n : number) : number :=
  match n with
  | Finite q => Finite (q * 1000)
  | Infinity => Infinity
  | NegInfinity => NegInfinity
  | NaN => NaN
  end.

(** *** Promises *)

(** How a promise settles. *)
Inductive Outcome (A : Type) : Type :=
| Fulfilled (a : A)
| Rejected (e : JsError).
Arguments Fulfilled {A} a.
Arguments Rejected {A} e.

(** A promise, seen from the moment it is created: the time after which
    it settles and how, or [None] when it never settles. *)
Definition Promise (A : Type) : Type := option (Q * Outcome A).

(** [Promise.race([p1, p2])] settles as the input that settles first.
    Two inputs settling at the same instant are taken in the order of
    the array. *)
Definition race2 {A} (p1 p2 : Promise A) : Promise A :=
  match p1, p2 with
  | None, _ => p2
  | _, None => p1
  | Some (t1, _), Some (t2, _) => if Qle_bool t1 t2 then p1 else p2
  end.

Definition Promise_race {A} (ps : list (Promise A)) : Promise A :=
  List.fold_right race2 None ps.

(** What the strategy takes from the platform and from [BaseStrategy.ts]
    without looking inside: requests, bodies, header lists with their
    [get] (which throws on a name that is no header name) and [append],
    the text of a number in a template string, and the constant
    [CACHE_TIMESTAMP_HEADER].  A value of [Body] names the stream of a
    body, not the bytes read from it: two responses with the same [body]
    share one stream, and whether that stream has been read or locked is
    no part of a [Response]. *)
Class Platform : Type := {
  Request : Type;
  Body : Type;
  Headers : Type;
  headers_get : Headers -> string -> Completion (option string);
  headers_append : Headers -> string -> string -> Headers;
  number_toString : number -> string;
  CACHE_TIMESTAMP_HEADER : string
}.

Section Strategy.

Context {platform : Platform}.

Record Response := mkResponse {
  status : Z;
  statusText : string;
  headers : Headers;
  body : option Body
}.

(** *** The world of one request *)

(** An open cache: what [match] finds for a request. *)
Record CacheHandle := mkCache {
  match_result : Request -> Completion (option Response)
}.

(** The calls that leave the strategy, in the order they are made. *)
Inductive Event : Type :=
| EvSetTimeout (ms : number)
| EvFetch (request : Request)
| EvOpenCache
| EvMatch (request : Request)
| EvPut (request : Request) (response : Response).

(** What the surroundings answer: how [fetch] settles for a request, the
    time after which a timer armed with a given delay fires, what the
    n-th call of [openCache] (defined in [BaseStrategy.ts]) yields, how
    a [put] into the cache settles, and the clock. *)
Record World := mkWorld {
  net_fetch : Request -> Promise Response;
  timer_fires : number -> Q;
  open_cache : nat -> Completion CacheHandle;
  put_settles : Request -> Response -> Promise unit;
  date_now : Z
}.

Definition Trace := list Event.

Definition emit (ev : Event) : M Trace unit := fun tr => (Return tt, tr ++ [ev]).

(** [await p] *)
Definition await {A} (p : Promise A) : M Trace A :=
  match p with
  | Some (_, Fulfilled a) => ret a
  | Some (_, Rejected e) => throw e
  | None => lift Hang
  end.

Definition count_opens (tr : Trace) : nat :=
  List.length (List.filter (fun ev => match ev with EvOpenCache => true | _ => false end) tr).

Section InWorld.

Variable w : World.

(** [fetch(request)] *)
Definition fetch (request : Request) : M Trace (Promise Response) :=
  emit (EvFetch request) ;;; ret (net_fetch w request).

(** [new Promise((_resolve, reject) => setTimeout(() => reject(e), ms))] *)
Definition timeout_promise (e : JsError) (ms : number) : M Trace (Promise Response) :=
  emit (EvSetTimeout ms) ;;; ret (Some (timer_fires w ms, Rejected e)).

(** [await this.openCache()] *)
Definition openCache : M Trace CacheHandle :=
  fun tr => (open_cache w (count_opens tr), tr ++ [EvOpenCache]).

(** [await cache.match(request)] *)
Definition cache_match (cache : CacheHandle) (request : Request) : M Trace (option Response) :=
  emit (EvMatch request) ;;; lift (match_result cache request).

(** [cache.put(request, response)] *)
Definition cache_put (cache : CacheHandle) (request : Request) (response : Response)
    : M Trace (Promise unit) :=
  emit (EvPut request response) ;;; ret (put_settles w request response).

(** *** The class *)

Record CacheableResponseOptions := mkCacheable {
  cr_statuses : option (list Z);
  cr_headers : option (list (string * string))
}.

(** [CacheableResponseOptions | false] *)
Inductive CacheableResponse : Type :=
| CR_false
| CR_options (o : CacheableResponseOptions).

Record NetworkFriendlyOptions := mkOptions {
  networkTimeoutInSeconds : option number;
  opt_cacheableResponse : option CacheableResponse
}.

(** [{}], the default value of the parameter [options]. *)
Definition no_options : NetworkFriendlyOptions := mkOptions None None.

Record NetworkFirst := mkNetworkFirst {
  cacheName : string;
  networkTimeoutSeconds : number;
  cacheableResponse : CacheableResponse
}.

Definition constructor (cacheName : string) (options : NetworkFriendlyOptions) : NetworkFirst :=
  mkNetworkFirst cacheName
    (default (Finite 10) (networkTimeoutInSeconds options))
    (default CR_false (opt_cacheableResponse options)).

Variable this : NetworkFirst.

Definition RangeError (msg : string) : JsError := mkError "RangeError" msg.
Definition TypeError (msg : string) : JsError := mkError "TypeError" msg.

(** The statuses of responses that carry no body. *)
Definition null_body_status (s : Z) : bool :=
  (s =? 101) || (s =? 103) || (s =? 204) || (s =? 205) || (s =? 304).

(** [new Response(body, { status, statusText, headers })].  The
    constructor refuses a status outside 200..599 with a [RangeError] and
    a body on a status that carries none with a [TypeError]. *)
Definition new_Response (body : option Body) (status : Z) (statusText : string)
    (headers : Headers) : M Trace Response :=
  if negb ((200 <=? status) && (status <=? 599))
  then throw (RangeError "status out of range")
  else if match body with Some _ => null_body_status status | None => false end
  then throw (TypeError "response with null body status cannot have body")
  else ret (mkResponse status statusText headers body).

(** The copy is built over [response.body] itself: the stream is handed
    on, not cloned. *)
Definition addTimestampHeader (response : Response) : M Trace Response :=
  let headers := headers_append (headers response) CACHE_TIMESTAMP_HEADER (pretty (date_now w)) in
  timestampedResponse <- new_Response (body response) (status response) (statusText response) headers ;;
  ret timestampedResponse.

(** The promise of [cache.put] is dropped: the statement is neither
    awaited nor returned. *)
Definition putInCache (request : Request) (response : Response) : M Trace unit :=
  cache <- openCache ;;
  timestampedResponse <- addTimestampHeader response ;;
  cache_put cache request timestampedResponse ;;;
  ret tt.

(** [entries.every(([key, value]) => response.headers.get(key) === value)] *)
Fixpoint every_header (response : Response) (entries : list (string * string)) : M Trace bool :=
  match entries with
  | [] => ret true
  | (key, value) :: rest =>
      got <- lift (headers_get (headers response) key) ;;
      if match got with Some v => String.eqb v value | None => false end
      then every_header response rest
      else ret false
  end.

Definition validateResponse (response : Response) : M Trace bool :=
  match cacheableResponse this with
  | CR_false => ret true
  | CR_options o =>
      let headers := default [] (cr_headers o) in
      let statuses := default [] (cr_statuses o) in
      let isStatusValid :=
        if (0 <? List.length statuses)%nat
        then existsb (Z.eqb (status response)) statuses
        else true in
      isHeaderValid <-
        (if (0 <? List.length headers)%nat
         then every_header response headers
         else ret true) ;;
      ret (isStatusValid && isHeaderValid)
  end.

Definition timeout_message (timeoutSeconds : number) : string :=
  ("Network timed out after " ++ number_toString timeoutSeconds ++ " seconds")%string.

Definition fetchWithTimeout (request : Request) : M Trace (Promise Response) :=
  let timeoutSeconds := networkTimeoutSeconds this in
  timeoutPromise <-
    (if neq_Infinity timeoutSeconds
     then p <- timeout_promise (Error (timeout_message timeoutSeconds)) (mul_1000 timeoutSeconds) ;;
          ret (Some p)
     else ret None) ;;
  match timeoutPromise with
  | Some tp => f <- fetch request ;; ret (Promise_race [f; tp])
  | None => fetch request
  end.

Definition no_response_message : string := "No response received from fetch: Timeout".

(** The [catch] block of [handleRequest]. *)
Definition fallback (request : Request) : M Trace Response :=
  cache <- openCache ;;
  response <- cache_match cache request ;;
  match response with
  | Some r => ret r
  | None => throw (Error no_response_message)
  end.

(** The [try] block of [handleRequest]. *)
Definition network_path (request : Request) : M Trace Response :=
  p <- fetchWithTimeout request ;;
  res <- await p ;;
  ok <- validateResponse res ;;
  (if ok then putInCache request res else ret tt) ;;;
  ret res.

Definition handleRequest (request : Request) : M Trace Response :=
  try_catch (network_path request) (fun _ => fallback request).

End InWorld.

(** A run of a method from the moment it is called. *)
Definition run {A} (m : M Trace A) : Completion A * Trace := m [].

(** The responses handed to [cache.put], with their requests. *)
Definition puts (tr : Trace) : list (Request * Response) :=
  List.flat_map (fun ev => match ev with EvPut r resp => [(r, resp)] | _ => [] end) tr.

(** The requests handed to [fetch]. *)
Definition fetches (tr : Trace) : list Request :=
  List.flat_map (fun ev => match ev with EvFetch r => [r] | _ => [] end) tr.

(** The two conditions of the cacheable-response policy in the words of
    the design document: the status list is empty or holds the status of
    the response; the header map is empty or every header it requires
    has, in the response, the value it expects. *)
Definition status_allowed (o : CacheableResponseOptions) (response : Response) : Prop :=
  default [] (cr_statuses o) = [] \/ In (status response) (default [] (cr_statuses o)).

Definition headers_as_required (o : CacheableResponseOptions) (response : Response) : Prop :=
  default [] (cr_headers o) = [] \/
  Forall (fun kv => headers_get (headers response) kv.1 = Return (Some kv.2))
         (default [] (cr_headers o)).

End Strategy.

Arguments Response : clear implicits.
Arguments Response {platform}.

(** *** A platform and some worlds to run the strategy in *)

(** Header lists as association lists; the empty name is no header name. *)
Definition demo_headers_get (h : list (string * string)) (name : string)
    : Completion (option string) :=
  if String.eqb name ""
  then Throw (TypeError "invalid header name")
  else Return (option_map snd (List.find (fun kv => String.eqb kv.1 name) h)).

(** The text of the integers and of the special values; any other
    fraction is written as a quotient. *)
Definition demo_number_toString (n : number) : string :=
  match n with
  | Finite q =>
      if (Qden q =? 1)%positive then pretty (Qnum q)
      else (pretty (Qnum q) ++ "/" ++ pretty (Zpos (Qden q)))%string
  | Infinity => "Infinity"
  | NegInfinity => "-Infinity"
  | NaN => "NaN"
  end.

Definition demo_platform : Platform := {|
  Request := string;
  Body := string;
  Headers := list (string * string);
  headers_get := demo_headers_get;
  headers_append := fun h k v => h ++ [(k, v)];
  number_toString := demo_number_toString;
  CACHE_TIMESTAMP_HEADER := "sw-cache-timestamp"
|}.

(** A timer fires after its delay in milliseconds, at once when the
    delay is negative or no finite number. *)
Definition demo_timer (ms : number) : Q :=
  match ms with
  | Finite q => if Qle_bool 0 q then q else 0%Q
  | _ => 0%Q
  end.

Definition demo_ok : @Response demo_platform :=
  @mkResponse demo_platform 200 "OK" [("content-type", "text/html")] (Some "<html>").

Definition demo_server_error : @Response demo_platform :=
  @mkResponse demo_platform 500 "Internal Server Error" [] (Some "oops").

(** An opaque response, as [fetch] yields for a [no-cors] request to
    another origin: status 0, no headers, no body. *)
Definition demo_opaque : @Response demo_platform :=
  @mkResponse demo_platform 0 "" [] None.

Definition demo_cached : @Response demo_platform :=
  @mkResponse demo_platform 200 "OK" [("sw-cache-timestamp", "1699999999999")] (Some "<old>").

Definition demo_empty_cache : @CacheHandle demo_platform :=
  @mkCache demo_platform (fun _ => Return None).

Definition demo_full_cache : @CacheHandle demo_platform :=
  @mkCache demo_platform (fun _ => Return (Some demo_cached)).

(** Every [put] into the cache succeeds. *)
Definition demo_put (_ : @Request demo_platform) (_ : @Response demo_platform) : Promise unit :=
  Some (3%Q, Fulfilled tt).

(** Every [put] into the cache fails: the quota is used up. *)
Definition demo_put_fails (_ : @Request demo_platform) (_ : @Response demo_platform)
    : Promise unit :=
  Some (3%Q, Rejected (mkError "QuotaExceededError" "quota exceeded")).

(** The network answers every request with [response] after [t]
    milliseconds; the cache is [cache]. *)
Definition demo_online (t : Q) (response : @Response demo_platform)
    (cache : @CacheHandle demo_platform) : @World demo_platform :=
  @mkWorld demo_platform (fun _ => Some (t, Fulfilled response)) demo_timer
          (fun _ => Return cache) demo_put 1700000000000.

(** The network answers every request with [response] after [t]
    milliseconds, the cache opens and is empty, and nothing can be put
    into it. *)
Definition demo_quota_exceeded (t : Q) (response : @Response demo_platform)
    : @World demo_platform :=
  @mkWorld demo_platform (fun _ => Some (t, Fulfilled response)) demo_timer
          (fun _ => Return demo_empty_cache) demo_put_fails 1700000000000.

(** The network rejects every request after [t] milliseconds. *)
Definition demo_offline (t : Q) (cache : @CacheHandle demo_platform) : @World demo_platform :=
  @mkWorld demo_platform (fun _ => Some (t, Rejected (TypeError "Failed to fetch"))) demo_timer
          (fun _ => Return cache) demo_put 1700000000000.

(** The network never answers. *)
Definition demo_silent (cache : @CacheHandle demo_platform) : @World demo_platform :=
  @mkWorld demo_platform (fun _ => None) demo_timer (fun _ => Return cache) demo_put
          1700000000000.

(** The network answers, and the first attempt to open the cache fails;
    later attempts open an empty cache. *)
Definition demo_cache_unavailable (response : @Response demo_platform) : @World demo_platform :=
  @mkWorld demo_platform (fun _ => Some (50%Q, Fulfilled response)) demo_timer
          (fun n => match n with
                    | O => Throw (mkError "QuotaExceededError" "cache storage unavailable")
                    | _ => Return demo_empty_cache
                    end)
          demo_put 1700000000000.

(** [new NetworkFirst("pages")] *)
Definition demo_strategy : NetworkFirst := constructor "pages" no_options.

(** [new NetworkFirst("pages", { cacheableResponse: { statuses: [200] } })] *)
Definition demo_strategy_200 : NetworkFirst :=
  constructor "pages" (mkOptions None (Some (CR_options (mkCacheable (Some [200]) None)))).


(** *** What the cache is given *)

Section Annotation.

Context {platform : Platform}.

(** The copy of a response that [addTimestampHeader] builds in a world:
    status, status text and body of the response, and its headers
    followed by the timestamp header with the clock's value in decimal. *)
Definition timestamped (w : World) (response : Response) : Response :=
  mkResponse (status response) (statusText response)
    (headers_append (headers response) CACHE_TIMESTAMP_HEADER (pretty (date_now w)))
    (body response).

(** The responses of which the constructor of [Response] builds a copy:
    the status is one it accepts, and a body comes with a status that
    carries one. *)
Definition copyable (response : Response) : bool :=
  (200 <=? status response) && (status response <=? 599)
  && negb (match body response with
           | Some _ => null_body_status (status response)
           | None => false
           end).

End Annotation.

(** The cache cannot be opened. *)
Definition demo_no_cache (t : Q) : @World demo_platform :=
  @mkWorld demo_platform (fun _ => Some (t, Rejected (TypeError "Failed to fetch"))) demo_timer
          (fun _ => Throw (mkError "SecurityError" "cache storage is not available"))
          demo_put 1700000000000.

(** [new NetworkFirst("pages", { cacheableResponse:
    { statuses: [200], headers: { "": "x", "content-type": "text/html" } } })]:
    the first required header has a name that is no header name. *)
Definition demo_strategy_bad_header : NetworkFirst :=
  constructor "pages"
    (mkOptions None
       (Some (CR_options (mkCacheable (Some [200])
                            (Some [("", "x"); ("content-type", "text/html")]))))).

(** [new NetworkFirst("pages", { cacheableResponse:
    { headers: { "content-type": "text/html", "x-cache": "yes" } } })] *)
Definition demo_strategy_headers : NetworkFirst :=
  constructor "pages"
    (mkOptions None
       (Some (CR_options (mkCacheable None
                            (Some [("content-type", "text/html"); ("x-cache", "yes")]))))).

End NetworkFirst.

(** ** Properties of the queue facade *)

Module QueueStoreFacts.

Import QueueStore.

Section Facts.

Context {Payload : Type}.

Implicit Types (d : BackgroundSyncQueueDb Payload) (s : State Payload).
Implicit Types (e x y : BackgroundSyncQueueStoreEntry Payload).
Implicit Types (l r : list (BackgroundSyncQueueStoreEntry Payload)).
Implicit Types (o : UnidentifiedQueueStoreEntry Payload).

(** *** The key-ordered list *)

Lemma insertByKey_above e l :
  Forall (fun x => e_id x < e_id e) l -> insertByKey e l = l ++ [e].
Proof.
  induction 1 as [|x r Hx _ IH]; simpl; [reflexivity|].
  destruct (Z.ltb_spec (e_id e) (e_id x)); [lia|]. now rewrite IH.
Qed.

Lemma insertByKey_below e x r :
  e_id e < e_id x -> insertByKey e (x :: r) = e :: x :: r.
Proof.
  intros H. simpl. destruct (Z.ltb_spec (e_id e) (e_id x)); [reflexivity|lia].
Qed.

Lemma hasId_false k l :
  Forall (fun x => e_id x <> k) l -> hasId k l = false.
Proof.
  induction 1 as [|x r Hx _ IH]; simpl; [reflexivity|].
  destruct (Z.eqb_spec (e_id x) k); [contradiction|]. exact IH.
Qed.

Lemma sorted_ids_head_least x r :
  sorted_ids (x :: r) -> Forall (fun y => e_id x < e_id y) r.
Proof. intros H. inversion H; subst. assumption. Qed.

(** [getFirstEntryId] is the least id of the store, and it is in use. *)
Lemma db_getFirstEntryId_least d m :
  db_wf d -> db_getFirstEntryId d = Some m ->
  hasId m (db_entries d) = true /\ Forall (fun e => m <= e_id e) (db_entries d).
Proof.
  intros [Hs _]. unfold db_getFirstEntryId. destruct (db_entries d) as [|x r]; [discriminate|].
  intros [= <-]. split.
  - simpl. now rewrite Z.eqb_refl.
  - constructor; [lia|]. apply sorted_ids_head_least in Hs.
    eapply List.Forall_impl; [|exact Hs]. simpl. intros; lia.
Qed.

Lemma db_getFirstEntryId_None d :
  db_getFirstEntryId d = None <-> db_entries d = [].
Proof. unfold db_getFirstEntryId. destruct (db_entries d); split; congruence. Qed.

(** *** [addEntry] *)

(** Without an id the entry goes to the end of the store, under the
    counter's value. *)
Lemma db_addEntry_auto d o :
  db_wf d -> u_id o = None ->
  db_addEntry o d =
    (Return tt,
     mkDb (db_entries d ++ [mkEntry (db_nextId d) (u_queueName o) (u_payload o)])
          (db_nextId d + 1)).
Proof.
  intros [_ Hb] Ho. unfold db_addEntry. rewrite Ho.
  rewrite hasId_false by (eapply List.Forall_impl; [|exact Hb]; simpl; intros; lia).
  rewrite insertByKey_above by exact Hb.
  now rewrite Z.max_r by lia.
Qed.

(** With an id below the least one the entry goes to the front, and the
    counter stays. *)
Lemma db_addEntry_front d o k :
  db_wf d -> u_id o = Some k ->
  Forall (fun e => k < e_id e) (db_entries d) -> k < db_nextId d ->
  db_addEntry o d =
    (Return tt,
     mkDb (mkEntry k (u_queueName o) (u_payload o) :: db_entries d) (db_nextId d)).
Proof.
  intros _ Ho Hk Hn. unfold db_addEntry. rewrite Ho.
  rewrite hasId_false by (eapply List.Forall_impl; [|exact Hk]; simpl; intros; lia).
  rewrite Z.max_l by lia. f_equal. f_equal.
  destruct (db_entries d) as [|x r]; [reflexivity|].
  apply insertByKey_below. inversion Hk; subst. assumption.
Qed.

Lemma db_wf_snoc d e :
  db_wf d -> e_id e = db_nextId d ->
  db_wf (mkDb (db_entries d ++ [e]) (db_nextId d + 1)).
Proof.
  intros [Hs Hb] He. split; simpl.
  - unfold sorted_ids in *. induction Hs as [|x r Hr IH Hx]; simpl.
    + repeat constructor.
    + inversion Hb; subst. constructor; [auto|].
      apply Forall_app. split; [assumption|]. constructor; [lia|constructor].
  - apply Forall_app. split.
    + eapply List.Forall_impl; [|exact Hb]. simpl. intros; lia.
    + constructor; [lia|constructor].
Qed.

Lemma db_wf_cons d e :
  db_wf d -> Forall (fun x => e_id e < e_id x) (db_entries d) -> e_id e < db_nextId d ->
  db_wf (mkDb (e :: db_entries d) (db_nextId d)).
Proof.
  intros [Hs Hb] He Hn. split; simpl.
  - constructor; assumption.
  - constructor; assumption.
Qed.

Lemma db_wf_delete d k : db_wf d -> db_wf (db_deleteEntry k d).
Proof.
  intros [Hs Hb]. split; simpl.
  - clear Hb. unfold sorted_ids in *.
    induction Hs as [|x r Hr IH Hx]; simpl; [constructor|].
    destruct (negb (e_id x =? k)); [|exact IH].
    constructor; [exact IH|].
    apply List.Forall_forall. intros y Hy. apply List.filter_In in Hy as [Hy _].
    rewrite List.Forall_forall in Hx. auto.
  - apply List.Forall_forall. intros y Hy. apply List.filter_In in Hy as [Hy _].
    rewrite List.Forall_forall in Hb. auto.
Qed.

(** *** The methods, one call at a time *)

Lemma update_run s entry o f :
  heap s !! entry = Some o ->
  update entry f s = (Return tt, mkState (<[entry := f o]> (heap s)) (db s)).
Proof. intros H. unfold update. now rewrite H. Qed.

Lemma read_run s entry o :
  heap s !! entry = Some o -> read entry s = (Return o, s).
Proof. intros H. unfold read. now rewrite H. Qed.

(** Up to the call of [addEntry], [pushEntry] has rewritten the caller's
    object and nothing else. *)
Lemma pushEntry_unfold q entry s o :
  heap s !! entry = Some o ->
  let o' := mkUnidentified None (Some q) (u_payload o) in
  pushEntry q entry s = addEntry o' (mkState (<[entry := o']> (heap s)) (db s)).
Proof.
  intros H o'. unfold pushEntry, bind.
  rewrite (update_run _ _ _ _ H).
  rewrite (update_run _ _ (delete_id o)) by (simpl; apply lookup_insert_eq).
  simpl. rewrite insert_insert_eq.
  rewrite (read_run _ _ o') by (simpl; apply lookup_insert_eq).
  reflexivity.
Qed.

Lemma unshiftEntry_unfold q entry s o :
  heap s !! entry = Some o ->
  let o' := mkUnidentified (unshift_id (db_getFirstEntryId (db s))) (Some q) (u_payload o) in
  unshiftEntry q entry s = addEntry o' (mkState (<[entry := o']> (heap s)) (db s)).
Proof.
  intros H o'. unfold unshiftEntry, bind, getFirstEntryId.
  assert (E : (if truthy (db_getFirstEntryId (db s))
               then update entry (set_id (default 0 (db_getFirstEntryId (db s)) - 1))
               else update entry delete_id) s
              = (Return tt,
                 mkState (<[entry := mkUnidentified (unshift_id (db_getFirstEntryId (db s)))
                                      (u_queueName o) (u_payload o)]> (heap s)) (db s))).
  { unfold unshift_id. destruct (truthy _); now rewrite (update_run _ _ _ _ H). }
  rewrite E.
  rewrite (update_run _ _ (mkUnidentified (unshift_id (db_getFirstEntryId (db s)))
                             (u_queueName o) (u_payload o)))
    by (simpl; apply lookup_insert_eq).
  simpl. rewrite insert_insert_eq.
  rewrite (read_run _ _ o') by (simpl; apply lookup_insert_eq).
  reflexivity.
Qed.

Lemma addEntry_heap o s : heap (addEntry o s).2 = heap s.
Proof. unfold addEntry. now destruct (db_addEntry o (db s)). Qed.

Lemma pushEntry_run q entry s o :
  db_wf (db s) -> heap s !! entry = Some o ->
  pushEntry q entry s =
    (Return tt,
     mkState (<[entry := mkUnidentified None (Some q) (u_payload o)]> (heap s))
       (mkDb (db_entries (db s) ++ [mkEntry (db_nextId (db s)) (Some q) (u_payload o)])
             (db_nextId (db s) + 1))).
Proof.
  intros Hwf H. rewrite (pushEntry_unfold _ _ _ _ H). unfold addEntry. simpl.
  now rewrite db_addEntry_auto.
Qed.

(** A least id other than 0: the new entry goes in front of the store,
    one below the least id. *)
Lemma unshiftEntry_run_front q entry s o m :
  db_wf (db s) -> heap s !! entry = Some o ->
  db_getFirstEntryId (db s) = Some m -> m <> 0 ->
  unshiftEntry q entry s =
    (Return tt,
     mkState (<[entry := mkUnidentified (Some (m - 1)) (Some q) (u_payload o)]> (heap s))
       (mkDb (mkEntry (m - 1) (Some q) (u_payload o) :: db_entries (db s))
             (db_nextId (db s)))).
Proof.
  intros Hwf H Hm Hne. rewrite (unshiftEntry_unfold _ _ _ _ H). rewrite Hm.
  unfold unshift_id, truthy. destruct (Z.eqb_spec m 0); [contradiction|]. simpl.
  destruct (db_getFirstEntryId_least _ _ Hwf Hm) as [Hin Hle].
  unfold addEntry. simpl. rewrite (db_addEntry_front _ _ (m - 1)); try reflexivity; try assumption.
  - eapply List.Forall_impl; [|exact Hle]. simpl. intros; lia.
  - destruct Hwf as [_ Hb]. unfold db_getFirstEntryId in Hm.
    destruct (db_entries (db s)) as [|x r]; [discriminate|].
    injection Hm as <-. inversion Hb; subst. lia.
Qed.

(** No least id, or the least id 0: the new entry gets the counter's
    value and goes to the end of the store. *)
Lemma unshiftEntry_run_auto q entry s o :
  db_wf (db s) -> heap s !! entry = Some o ->
  truthy (db_getFirstEntryId (db s)) = false ->
  unshiftEntry q entry s =
    (Return tt,
     mkState (<[entry := mkUnidentified None (Some q) (u_payload o)]> (heap s))
       (mkDb (db_entries (db s) ++ [mkEntry (db_nextId (db s)) (Some q) (u_payload o)])
             (db_nextId (db s) + 1))).
Proof.
  intros Hwf H Hf. rewrite (unshiftEntry_unfold _ _ _ _ H).
  unfold unshift_id. rewrite Hf. unfold addEntry. simpl.
  now rewrite db_addEntry_auto.
Qed.

Lemma _removeEntry_None s : _removeEntry None s = (Return None, s).
Proof. reflexivity. Qed.

Lemma _removeEntry_Some e s :
  _removeEntry (Some e) s = (Return (Some e), mkState (heap s) (db_deleteEntry (e_id e) (db s))).
Proof. reflexivity. Qed.

Lemma popEntry_empty q s : queue_empty q (db s) -> popEntry q s = (Return None, s).
Proof.
  intros H. unfold popEntry, bind, getLastEntryByQueueName, db_getLastEntryByQueueName.
  now rewrite H.
Qed.

Lemma shiftEntry_empty q s : queue_empty q (db s) -> shiftEntry q s = (Return None, s).
Proof.
  intros H. unfold shiftEntry, bind, getFirstEntryByQueueName, db_getFirstEntryByQueueName.
  now rewrite H.
Qed.

Lemma shiftEntry_head q s e r :
  db_getAllEntriesByQueueName q (db s) = e :: r ->
  shiftEntry q s = (Return (Some e), mkState (heap s) (db_deleteEntry (e_id e) (db s))).
Proof.
  intros H. unfold shiftEntry, bind, getFirstEntryByQueueName, db_getFirstEntryByQueueName.
  now rewrite H.
Qed.

Lemma times_fixed {A} (m : M (State Payload) A) (a : A) s n :
  m s = (Return a, s) -> times n m s = (Return (List.repeat a n), s).
Proof.
  intros H. induction n as [|n IH]; simpl; [reflexivity|].
  unfold bind. rewrite H, IH. reflexivity.
Qed.

(** *** The invariant of the store

    Every method of the facade keeps the store well formed, whatever it
    is called with, so that a store reached from a fresh database by
    calls of the facade is well formed. *)

Lemma emptyDb_wf : db_wf (@emptyDb Payload).
Proof. split; constructor. Qed.

Lemma pushEntry_wf q entry s : db_wf (db s) -> db_wf (db (pushEntry q entry s).2).
Proof.
  intros Hwf. destruct (heap s !! entry) as [o|] eqn:H.
  - rewrite (pushEntry_run q entry s o Hwf H). simpl. now apply db_wf_snoc.
  - unfold pushEntry, bind, update. now rewrite H.
Qed.

Lemma unshiftEntry_wf q entry s : db_wf (db s) -> db_wf (db (unshiftEntry q entry s).2).
Proof.
  intros Hwf. destruct (heap s !! entry) as [o|] eqn:H.
  - destruct (truthy (db_getFirstEntryId (db s))) eqn:Ht.
    + destruct (db_getFirstEntryId (db s)) as [m|] eqn:Hm; [|discriminate].
      assert (Hne : m <> 0) by (simpl in Ht; destruct (Z.eqb_spec m 0); [discriminate|assumption]).
      rewrite (unshiftEntry_run_front q entry s o m Hwf H Hm Hne). simpl.
      destruct (db_getFirstEntryId_least _ _ Hwf Hm) as [_ Hle].
      apply db_wf_cons; [exact Hwf| |]; simpl.
      * eapply List.Forall_impl; [|exact Hle]. simpl. intros; lia.
      * destruct Hwf as [_ Hb]. unfold db_getFirstEntryId in Hm.
        destruct (db_entries (db s)) as [|x r]; [discriminate|].
        injection Hm as <-. inversion Hb; subst. lia.
    + rewrite (unshiftEntry_run_auto q entry s o Hwf H Ht). simpl. now apply db_wf_snoc.
  - unfold unshiftEntry, bind, getFirstEntryId, update.
    destruct (truthy _); now rewrite H.
Qed.

Lemma _removeEntry_wf oe s : db_wf (db s) -> db_wf (db (_removeEntry oe s).2).
Proof.
  intros Hwf. destruct oe as [e|]; [|exact Hwf].
  rewrite _removeEntry_Some. simpl. now apply db_wf_delete.
Qed.

Lemma popEntry_wf q s : db_wf (db s) -> db_wf (db (popEntry q s).2).
Proof. intros Hwf. unfold popEntry, bind, getLastEntryByQueueName. now apply _removeEntry_wf. Qed.

Lemma shiftEntry_wf q s : db_wf (db s) -> db_wf (db (shiftEntry q s).2).
Proof. intros Hwf. unfold shiftEntry, bind, getFirstEntryByQueueName. now apply _removeEntry_wf. Qed.

Lemma deleteEntry_wf k s : db_wf (db s) -> db_wf (db (deleteEntry k s).2).
Proof. intros Hwf. simpl. now apply db_wf_delete. Qed.

Lemma filter_other_ids k l :
  Forall (fun e => e_id e < k) l -> List.filter (fun e => negb (e_id e =? k)) l = l.
Proof.
  induction 1 as [|x r Hx _ IH]; simpl; [reflexivity|].
  destruct (Z.eqb_spec (e_id x) k); [lia|]. simpl. now rewrite IH.
Qed.

Lemma hasQueueName_stamped q k (p : Payload) : hasQueueName q (mkEntry k (Some q) p) = true.
Proof. unfold hasQueueName. simpl. apply String.eqb_refl. Qed.

(** *** The properties of the design document *)

(** C5.  FIFO law.  On a queue name that has no entry in the store (the
    store may hold entries of other queue names), [pushEntry(a);
    pushEntry(b)] followed by three calls of [shiftEntry()] returns the
    entry stored for [a], then the entry stored for [b], then none; the
    entries returned carry the payloads of [a] and [b], the queue name
    of the facade and the two ids the store assigned, in this order.
    The store holds afterwards what it held before. *)
Theorem C5_push_shift_fifo q (a b : loc) oa ob s :
  db_wf (db s) -> queue_empty q (db s) ->
  heap s !! a = Some oa -> heap s !! b = Some ob ->
  exists s',
    (pushEntry q a ;;; pushEntry q b ;;;
     r1 <- shiftEntry q ;; r2 <- shiftEntry q ;; r3 <- shiftEntry q ;;
     ret (r1, r2, r3)) s
    = (Return (Some (mkEntry (db_nextId (db s)) (Some q) (u_payload oa)),
               Some (mkEntry (db_nextId (db s) + 1) (Some q) (u_payload ob)),
               None), s')
    /\ db_entries (db s') = db_entries (db s).
Proof.
  intros Hwf He Ha Hb.
  set (k := db_nextId (db s)).
  set (ea := mkEntry k (Some q) (u_payload oa)).
  set (eb := mkEntry (k + 1) (Some q) (u_payload ob)).
  assert (Hlt : Forall (fun e => e_id e < k) (db_entries (db s))) by apply Hwf.
  assert (Hlt' : Forall (fun e => e_id e < k + 1) (db_entries (db s))).
  { eapply List.Forall_impl; [|exact Hlt]. simpl. intros; lia. }
  unfold bind at 1. rewrite (pushEntry_run q a s oa Hwf Ha). fold k ea.
  set (s1 := mkState _ _).
  assert (Hwf1 : db_wf (db s1)) by (apply db_wf_snoc; [exact Hwf|reflexivity]).
  assert (Hb1 : heap s1 !! b = Some (if decide (a = b)
                   then mkUnidentified None (Some q) (u_payload oa) else ob)).
  { unfold s1. simpl. rewrite lookup_insert. destruct (decide (a = b)); [reflexivity|exact Hb]. }
  assert (Hp : u_payload (if decide (a = b)
                 then mkUnidentified None (Some q) (u_payload oa) else ob) = u_payload ob).
  { destruct (decide (a = b)) as [->|]; [|reflexivity]. simpl. congruence. }
  unfold bind at 1. rewrite (pushEntry_run q b s1 _ Hwf1 Hb1). rewrite Hp.
  simpl db_entries. simpl db_nextId. fold k eb.
  set (s2 := mkState _ _).
  assert (Hall2 : db_getAllEntriesByQueueName q (db s2) = [ea; eb]).
  { unfold db_getAllEntriesByQueueName, s2. simpl.
    rewrite !List.filter_app. simpl. unfold queue_empty, db_getAllEntriesByQueueName in He.
    rewrite He. unfold ea, eb. now rewrite !hasQueueName_stamped. }
  unfold bind at 1. rewrite (shiftEntry_head q s2 ea [eb] Hall2).
  set (s3 := mkState _ _).
  assert (Hd3 : db_entries (db s3) = db_entries (db s) ++ [eb]).
  { unfold s3, s2. simpl. rewrite !List.filter_app, (filter_other_ids k) by exact Hlt.
    simpl. rewrite Z.eqb_refl. simpl.
    destruct (Z.eqb_spec (k + 1) k); [lia|]. simpl. now rewrite <- app_assoc. }
  assert (Hall3 : db_getAllEntriesByQueueName q (db s3) = [eb]).
  { unfold db_getAllEntriesByQueueName. rewrite Hd3, List.filter_app. simpl.
    unfold queue_empty, db_getAllEntriesByQueueName in He. rewrite He.
    unfold eb. now rewrite hasQueueName_stamped. }
  unfold bind at 1. rewrite (shiftEntry_head q s3 eb [] Hall3).
  set (s4 := mkState _ _).
  assert (Hd4 : db_entries (db s4) = db_entries (db s)).
  { unfold s4, db_deleteEntry. cbn [db db_entries].
    rewrite Hd3, List.filter_app, (filter_other_ids (k + 1)) by exact Hlt'.
    simpl. rewrite Z.eqb_refl. simpl. apply app_nil_r. }
  assert (He4 : queue_empty q (db s4)).
  { unfold queue_empty, db_getAllEntriesByQueueName. rewrite Hd4. exact He. }
  unfold bind at 1. rewrite (shiftEntry_empty q s4 He4).
  exists s4. split; [reflexivity|exact Hd4].
Qed.

(** C8.  On a queue name without entries, [popEntry()] and
    [shiftEntry()] return none, raise nothing and leave the whole state
    (store and caller's objects) as it was, also when called [n] times
    in a row, for every [n]. *)
Theorem C8_empty_pop_shift q s (n : nat) :
  queue_empty q (db s) ->
  popEntry q s = (Return None, s)
  /\ shiftEntry q s = (Return None, s)
  /\ times n (popEntry q) s = (Return (List.repeat None n), s)
  /\ times n (shiftEntry q) s = (Return (List.repeat None n), s).
Proof.
  intros H. repeat split.
  - now apply popEntry_empty.
  - now apply shiftEntry_empty.
  - apply times_fixed. now apply popEntry_empty.
  - apply times_fixed. now apply shiftEntry_empty.
Qed.

(** C9.  [pushEntry] and [unshiftEntry] write into the object the caller
    passed: when the call is over (whether [addEntry] succeeded or not)
    that object has the facade's queue name, and no [id] after
    [pushEntry], and after [unshiftEntry] the id one below the store's
    least id when that is truthy and no [id] otherwise.  The payload and
    every other object are as before.  An object that came with an id,
    or without the facade's queue name, is therefore no longer what the
    caller passed. *)
Theorem C9_argument_mutated_in_place q (entry : loc) o s :
  heap s !! entry = Some o ->
  let after_push := heap (pushEntry q entry s).2 in
  let after_unshift := heap (unshiftEntry q entry s).2 in
  after_push !! entry = Some (mkUnidentified None (Some q) (u_payload o))
  /\ after_unshift !! entry
     = Some (mkUnidentified (unshift_id (db_getFirstEntryId (db s))) (Some q) (u_payload o))
  /\ (forall other, other <> entry ->
        after_push !! other = heap s !! other /\ after_unshift !! other = heap s !! other)
  /\ (u_id o <> None \/ u_queueName o <> Some q -> after_push !! entry <> Some o)
  /\ (u_queueName o <> Some q -> after_unshift !! entry <> Some o).
Proof.
  intros H after_push after_unshift. subst after_push after_unshift.
  rewrite (pushEntry_unfold _ _ _ _ H), (unshiftEntry_unfold _ _ _ _ H).
  rewrite !addEntry_heap. simpl.
  rewrite !lookup_insert_eq.
  split; [reflexivity|]. split; [reflexivity|]. split; [|split].
  - intros other Hne. rewrite !lookup_insert_ne by congruence. now split.
  - intros [Hid|Hq] [= E]; destruct o as [i qn p]; simpl in *; congruence.
  - intros Hq [= E]; destruct o as [i qn p]; simpl in *; congruence.
Qed.

(** Pushing and then unshifting on a queue name without entries lists
    the unshifted entry first, as long as the least id the store holds
    after the push is not 0. *)
Lemma unshiftEntry_after_pushEntry q (a b : loc) oa ob s m :
  db_wf (db s) -> queue_empty q (db s) ->
  heap s !! a = Some oa -> heap s !! b = Some ob ->
  db_getFirstEntryId
    (mkDb (db_entries (db s) ++ [mkEntry (db_nextId (db s)) (Some q) (u_payload oa)])
          (db_nextId (db s) + 1)) = Some m ->
  m <> 0 ->
  ((pushEntry q a ;;; unshiftEntry q b ;;; getAll q) s).1
  = Return [mkEntry (m - 1) (Some q) (u_payload ob);
            mkEntry (db_nextId (db s)) (Some q) (u_payload oa)].
Proof.
  intros Hwf He Ha Hb Hm Hne.
  unfold bind at 1. rewrite (pushEntry_run q a s oa Hwf Ha).
  set (s1 := mkState _ _).
  assert (Hwf1 : db_wf (db s1)) by (apply db_wf_snoc; [exact Hwf|reflexivity]).
  assert (Hb1 : heap s1 !! b = Some (if decide (a = b)
                   then mkUnidentified None (Some q) (u_payload oa) else ob)).
  { unfold s1. simpl. rewrite lookup_insert. destruct (decide (a = b)); [reflexivity|exact Hb]. }
  assert (Hp : u_payload (if decide (a = b)
                 then mkUnidentified None (Some q) (u_payload oa) else ob) = u_payload ob).
  { destruct (decide (a = b)) as [->|]; [|reflexivity]. simpl. congruence. }
  unfold bind at 1. rewrite (unshiftEntry_run_front q b s1 _ m Hwf1 Hb1 Hm Hne). rewrite Hp.
  unfold getAll, getAllEntriesByQueueName, db_getAllEntriesByQueueName. simpl.
  rewrite hasQueueName_stamped, List.filter_app. simpl.
  unfold queue_empty, db_getAllEntriesByQueueName in He. rewrite He.
  now rewrite hasQueueName_stamped.
Qed.

End Facts.

(** *** Runs on the demo store *)

Lemma demo_db_zero_wf : db_wf demo_db_zero.
Proof.
  split; simpl.
  - repeat constructor.
  - repeat constructor.
Qed.

Lemma demo_db_zero_Y_empty : queue_empty "Y" demo_db_zero.
Proof. reflexivity. Qed.

Lemma demo_heap_3 : demo_heap !! 3%positive = Some (mkUnidentified None None "a").
Proof. reflexivity. Qed.

Lemma demo_heap_4 : demo_heap !! 4%positive = Some (mkUnidentified None None "b").
Proof. reflexivity. Qed.

Lemma demo_heap_1 : demo_heap !! 1%positive = Some (mkUnidentified (Some 7) (Some "other") "x").
Proof. reflexivity. Qed.

(** C1.  [unshiftEntry] reads the least id of the whole store with
    [getFirstEntryId()] and tests it with [if (firstId)], which also
    fails for the id 0.  On a fresh database [pushEntry(x)] stores [x]
    under 1 and [unshiftEntry(y)] stores [y] under 0; the least id is
    then 0, and the next [unshiftEntry(a)] deletes the id of [a] and lets
    the store assign 2, so that [a] is listed last and not first.  The
    same happens from the well-formed store that holds a single entry
    under the id 0: the entry is stored under 2, not under -1. *)
Theorem C1_unshiftEntry_least_id_zero :
  ((pushEntry "X" 1%positive ;;; unshiftEntry "X" 2%positive ;;;
    firstId <- getFirstEntryId ;;
    unshiftEntry "X" 3%positive ;;;
    a <- read 3%positive ;;
    all <- getAll "X" ;;
    ret (firstId, u_id a, all)) demo_fresh).1
  = Return (Some 0, None,
            [mkEntry 0 (Some "X") "y"; mkEntry 1 (Some "X") "x"; mkEntry 2 (Some "X") "a"])
  /\ db_getFirstEntryId (db demo_zero) = Some 0
  /\ db (unshiftEntry "Y" 3%positive demo_zero).2
     = mkDb [mkEntry 0 (Some "X") "y"; mkEntry 2 (Some "Y") "a"] 3.
Proof. repeat split; vm_compute; reflexivity. Qed.

(** C6.  On a store whose least id is 0 (queue ["X"] after [pushEntry]
    and [unshiftEntry] on a fresh database) queue ["Y"] has no entry;
    [pushEntry(a); unshiftEntry(b)] on ["Y"] then stores [a] under 2 and,
    the least id being falsy, [b] under 3: [getAll()] is [[a, b]], not
    [[b, a]].  The same run from the well-formed store that holds the
    single entry of queue ["X"] under the id 0 and has the counter at 2
    gives the same list. *)
Theorem C6_unshiftEntry_after_pushEntry_least_id_zero :
  ((pushEntry "X" 1%positive ;;; unshiftEntry "X" 2%positive ;;;
    n <- size "Y" ;;
    pushEntry "Y" 3%positive ;;; unshiftEntry "Y" 4%positive ;;;
    all <- getAll "Y" ;;
    ret (n, all)) demo_fresh).1
  = Return (0%nat, [mkEntry 2 (Some "Y") "a"; mkEntry 3 (Some "Y") "b"])
  /\ ((n <- size "Y" ;;
       pushEntry "Y" 3%positive ;;; unshiftEntry "Y" 4%positive ;;;
       all <- getAll "Y" ;;
       ret (n, all)) demo_zero).1
     = Return (0%nat, [mkEntry 2 (Some "Y") "a"; mkEntry 3 (Some "Y") "b"]).
Proof. split; vm_compute; reflexivity. Qed.

Lemma C5_push_shift_fifo_witness :
  exists s',
    (pushEntry "Y" 3%positive ;;; pushEntry "Y" 4%positive ;;;
     r1 <- shiftEntry "Y" ;; r2 <- shiftEntry "Y" ;; r3 <- shiftEntry "Y" ;;
     ret (r1, r2, r3)) demo_zero
    = (Return (Some (mkEntry 2 (Some "Y") "a"), Some (mkEntry 3 (Some "Y") "b"), None), s')
    /\ db_entries (db s') = [mkEntry 0 (Some "X") "y"].
Proof.
  exact (C5_push_shift_fifo "Y" 3%positive 4%positive _ _ demo_zero
           demo_db_zero_wf demo_db_zero_Y_empty demo_heap_3 demo_heap_4).
Defined.

Lemma C8_empty_pop_shift_witness :
  popEntry "Y" demo_zero = (Return None, demo_zero)
  /\ shiftEntry "Y" demo_zero = (Return None, demo_zero)
  /\ times 3 (popEntry "Y") demo_zero = (Return [None; None; None], demo_zero)
  /\ times 3 (shiftEntry "Y") demo_zero = (Return [None; None; None], demo_zero).
Proof.
  exact (C8_empty_pop_shift "Y" demo_zero 3 demo_db_zero_Y_empty).
Defined.

Lemma C9_argument_mutated_in_place_witness :
  heap (pushEntry "Y" 1%positive demo_zero).2 !! 1%positive
  = Some (mkUnidentified None (Some "Y") "x")
  /\ heap (unshiftEntry "Y" 1%positive demo_fresh).2 !! 1%positive
     = Some (mkUnidentified None (Some "Y") "x").
Proof.
  split.
  - exact (proj1 (C9_argument_mutated_in_place "Y" 1%positive _ demo_zero demo_heap_1)).
  - exact (proj1 (proj2 (C9_argument_mutated_in_place "Y" 1%positive _ demo_fresh demo_heap_1))).
Defined.

End QueueStoreFacts.

(** ** Properties of the network-first strategy *)

Module NetworkFirstFacts.

Import NetworkFirst.

Section Facts.

Context {platform : Platform}.
Variable w : World.
Variable this : NetworkFirst.

Implicit Types (request : Request) (response res : Response) (tr : Trace).
Implicit Types (p : Promise Response) (e : JsError) (cache : CacheHandle).

(** *** The race *)



(** With a timeout other than [Infinity] the timer is armed first, the
    fetch issued second, and the two race. *)
Lemma fetchWithTimeout_timer request tr :
  neq_Infinity (networkTimeoutSeconds this) = true ->
  fetchWithTimeout w this request tr =
    (Return (race2 (net_fetch w request)
               (Some (timer_fires w (mul_1000 (networkTimeoutSeconds this)),
                      Rejected (Error (timeout_message (networkTimeoutSeconds this)))))),
     tr ++ [EvSetTimeout (mul_1000 (networkTimeoutSeconds this)); EvFetch request]).
Proof.
  intros H. unfold fetchWithTimeout. rewrite H.
  unfold bind, timeout_promise, fetch, emit, ret, bind, Promise_race. simpl.
  rewrite <- app_assoc.
  destruct (net_fetch w request) as [[tf o]|]; reflexivity.
Qed.

(** With the timeout [Infinity] there is the fetch and nothing else. *)
Lemma fetchWithTimeout_no_timer request tr :
  networkTimeoutSeconds this = Infinity ->
  fetchWithTimeout w this request tr = (Return (net_fetch w request), tr ++ [EvFetch request]).
Proof.
  intros H. unfold fetchWithTimeout. rewrite H. reflexivity.
Qed.

(** *** Validation *)

Lemma every_header_trace response entries tr :
  (every_header response entries tr).2 = tr.
Proof.
  induction entries as [|[key value] rest IH]; simpl; [reflexivity|].
  unfold bind, lift. destruct (headers_get (headers response) key) as [[v|]| |]; try reflexivity.
  destruct (String.eqb v value); [exact IH|reflexivity].
Qed.

Lemma every_header_true response entries tr :
  (every_header response entries tr).1 = Return true <->
  Forall (fun kv => headers_get (headers response) kv.1 = Return (Some kv.2)) entries.
Proof.
  induction entries as [|[key value] rest IH]; simpl.
  - split; [constructor|reflexivity].
  - unfold bind, lift.
    destruct (headers_get (headers response) key) as [[v|]| |] eqn:E; simpl.
    + destruct (String.eqb_spec v value) as [->|Hne].
      * rewrite IH. split; [intros H; constructor; [exact E|exact H]|].
        intros H. inversion H; subst. assumption.
      * split; [discriminate|]. intros H. inversion H; subst. simpl in *. congruence.
    + split; [discriminate|]. intros H. inversion H; subst. simpl in *. congruence.
    + split; [discriminate|]. intros H. inversion H; subst. simpl in *. congruence.
    + split; [discriminate|]. intros H. inversion H; subst. simpl in *. congruence.
Qed.

(** Validation calls nothing outside the strategy. *)
Lemma validateResponse_trace response tr :
  (validateResponse this response tr).2 = tr.
Proof.
  unfold validateResponse. destruct (cacheableResponse this) as [|o]; [reflexivity|].
  unfold bind. destruct (0 <? List.length (default [] (cr_headers o)))%nat.
  - pose proof (every_header_trace response (default [] (cr_headers o)) tr) as H.
    destruct (every_header response (default [] (cr_headers o)) tr) as [[b| |] tr']; simpl in *;
      now subst.
  - reflexivity.
Qed.

Lemma status_allowed_spec (o : CacheableResponseOptions) response :
  (if (0 <? List.length (default [] (cr_statuses o)))%nat
   then existsb (Z.eqb (status response)) (default [] (cr_statuses o))
   else true) = true <-> status_allowed o response.
Proof.
  unfold status_allowed. destruct (default [] (cr_statuses o)) as [|s0 ss]; simpl.
  - split; [now left|reflexivity].
  - change (s0 :: ss) with ([s0] ++ ss). rewrite orb_true_iff, existsb_exists. split.
    + intros [H|(x & Hin & Hx)]; right.
      * apply Z.eqb_eq in H. left. now symmetry.
      * apply Z.eqb_eq in Hx. subst x. right. exact Hin.
    + intros [H|[H|H]]; [discriminate| |].
      * left. apply Z.eqb_eq. now symmetry.
      * right. exists (status response). split; [exact H|apply Z.eqb_refl].
Qed.

Lemma validateResponse_true response tr :
  (validateResponse this response tr).1 = Return true <->
  (cacheableResponse this = CR_false \/
   exists o, cacheableResponse this = CR_options o
             /\ status_allowed o response /\ headers_as_required o response).
Proof.
  unfold validateResponse. destruct (cacheableResponse this) as [|o].
  - split; [now left|reflexivity].
  - cbv zeta.
    set (sv := if (0 <? _)%nat then existsb _ _ else true).
    assert (Hh : (bind (if (0 <? List.length (default [] (cr_headers o)))%nat
                        then every_header response (default [] (cr_headers o))
                        else ret true)
                       (fun isHeaderValid => ret (sv && isHeaderValid)) tr).1 = Return true
                 <-> sv = true /\ headers_as_required o response).
    { unfold headers_as_required, bind.
      destruct (default [] (cr_headers o)) as [|kv rest] eqn:Eh.
      - simpl. rewrite andb_true_r. split.
        + intros [= ->]. split; [reflexivity|now left].
        + intros [-> _]. reflexivity.
      - change (0 <? List.length (kv :: rest))%nat with true. cbv iota.
        pose proof (every_header_true response (kv :: rest) tr) as Ht.
        destruct (every_header response (kv :: rest) tr) as [[b| |] tr']; simpl in *.
        + split.
          * intros [= Hb]. apply andb_true_iff in Hb as [Hs Hb]. subst b.
            split; [exact Hs|]. right. now apply Ht.
          * intros [-> [Hn|Hf]]; [discriminate|].
            apply Ht in Hf. injection Hf as ->. reflexivity.
        + split; [discriminate|]. intros [_ [Hn|Hf]]; [discriminate|].
          apply Ht in Hf. discriminate.
        + split; [discriminate|]. intros [_ [Hn|Hf]]; [discriminate|].
          apply Ht in Hf. discriminate. }
    rewrite Hh. split.
    + intros [Hs Hr]. right. exists o.
      split; [reflexivity|]. split; [now apply status_allowed_spec|exact Hr].
    + intros [H|(o' & [= <-] & Hs & Hr)]; [discriminate|].
      split; [now apply status_allowed_spec|exact Hr].
Qed.

(** *** The two paths of [handleRequest] *)

Lemma puts_app tr tr' : puts (tr ++ tr') = puts tr ++ puts tr'.
Proof. unfold puts. apply List.flat_map_app. Qed.

Lemma fetches_app tr tr' : fetches (tr ++ tr') = fetches tr ++ fetches tr'.
Proof. unfold fetches. apply List.flat_map_app. Qed.

Lemma neq_Infinity_false (n : number) : neq_Infinity n = false -> n = Infinity.
Proof. destruct n; simpl; congruence. Qed.

(** What [fetchWithTimeout] returns is the promise of the fetch, or of
    the race between the fetch and the timer; it has called [fetch] once
    and the cache not at all. *)
Lemma fetchWithTimeout_run request :
  exists p tr1,
    run (fetchWithTimeout w this request) = (Return p, tr1)
    /\ puts tr1 = [] /\ count_opens tr1 = 0%nat /\ fetches tr1 = [request]
    /\ (p = net_fetch w request
        \/ exists t, p = Some (t, Rejected (Error (timeout_message (networkTimeoutSeconds this))))).
Proof.
  unfold run. destruct (neq_Infinity (networkTimeoutSeconds this)) eqn:E.
  - rewrite (fetchWithTimeout_timer request [] E). eexists _, _. split; [reflexivity|].
    repeat split.
    destruct (net_fetch w request) as [[tf o]|]; simpl.
    + destruct (Qle_bool tf _); [now left|right; eauto].
    + right; eauto.
  - apply neq_Infinity_false in E. rewrite (fetchWithTimeout_no_timer request [] E).
    eexists _, _. split; [reflexivity|]. repeat split. now left.
Qed.

Lemma network_path_rejected request tr tr1 (t : Q) e :
  fetchWithTimeout w this request tr = (Return (Some (t, Rejected e)), tr1) ->
  network_path w this request tr = (Throw e, tr1).
Proof. intros H. unfold network_path, bind. now rewrite H. Qed.

Lemma network_path_pending request tr tr1 :
  fetchWithTimeout w this request tr = (Return None, tr1) ->
  network_path w this request tr = (Hang, tr1).
Proof. intros H. unfold network_path, bind. now rewrite H. Qed.

Lemma network_path_fulfilled request tr tr1 (t : Q) res :
  fetchWithTimeout w this request tr = (Return (Some (t, Fulfilled res)), tr1) ->
  network_path w this request tr =
    match (validateResponse this res tr1).1 with
    | Return true =>
        match putInCache w request res tr1 with
        | (Return _, tr2) => (Return res, tr2)
        | (Throw e, tr2) => (Throw e, tr2)
        | (Hang, tr2) => (Hang, tr2)
        end
    | Return false => (Return res, tr1)
    | Throw e => (Throw e, tr1)
    | Hang => (Hang, tr1)
    end.
Proof.
  intros H. unfold network_path, bind. rewrite H. simpl.
  pose proof (validateResponse_trace res tr1) as Hv.
  destruct (validateResponse this res tr1) as [[[|]| |] tr']; simpl in *; subst tr'; reflexivity.
Qed.

Lemma handleRequest_catch request e tr1 :
  run (network_path w this request) = (Throw e, tr1) ->
  run (handleRequest w this request) = fallback w request tr1.
Proof. unfold run, handleRequest, try_catch. now intros ->. Qed.

Lemma handleRequest_Return request res tr1 :
  run (network_path w this request) = (Return res, tr1) ->
  run (handleRequest w this request) = (Return res, tr1).
Proof. unfold run, handleRequest, try_catch. now intros ->. Qed.

Lemma handleRequest_Hang request tr1 :
  run (network_path w this request) = (Hang, tr1) ->
  run (handleRequest w this request) = (Hang, tr1).
Proof. unfold run, handleRequest, try_catch. now intros ->. Qed.

Lemma fallback_hit request tr cache r :
  open_cache w (count_opens tr) = Return cache ->
  match_result cache request = Return (Some r) ->
  fallback w request tr = (Return r, tr ++ [EvOpenCache; EvMatch request]).
Proof.
  intros Ho Hm. unfold fallback, bind, openCache, cache_match, emit, lift, bind.
  rewrite Ho. simpl. rewrite Hm. now rewrite <- app_assoc.
Qed.

Lemma fallback_miss request tr cache :
  open_cache w (count_opens tr) = Return cache ->
  match_result cache request = Return None ->
  fallback w request tr =
    (Throw (Error no_response_message), tr ++ [EvOpenCache; EvMatch request]).
Proof.
  intros Ho Hm. unfold fallback, bind, openCache, cache_match, emit, lift, bind.
  rewrite Ho. simpl. rewrite Hm. now rewrite <- app_assoc.
Qed.

(** The fallback reads the cache and never writes to it. *)
Lemma fallback_puts request tr : puts (fallback w request tr).2 = puts tr.
Proof.
  unfold fallback, bind, openCache, cache_match, emit, lift, bind.
  destruct (open_cache w (count_opens tr)) as [cache| |]; simpl;
    [|rewrite puts_app; simpl; apply app_nil_r..].
  destruct (match_result cache request) as [[r|]| |]; simpl;
    rewrite ?puts_app; simpl; now rewrite ?app_nil_r.
Qed.

(** [putInCache] when the cache opens and the constructor of [Response]
    accepts the status and the body. *)
Lemma putInCache_run request res tr cache :
  open_cache w (count_opens tr) = Return cache ->
  200 <= status res <= 599 ->
  (body res = None \/ null_body_status (status res) = false) ->
  putInCache w request res tr =
    (Return tt,
     tr ++ [EvOpenCache;
            EvPut request
              (mkResponse (status res) (statusText res)
                 (headers_append (headers res) CACHE_TIMESTAMP_HEADER (pretty (date_now w)))
                 (body res))]).
Proof.
  intros Ho [Hlo Hhi] Hb.
  unfold putInCache, bind, openCache, addTimestampHeader, new_Response, cache_put, emit, bind.
  rewrite Ho.
  destruct (Z.leb_spec 200 (status res)); [|lia].
  destruct (Z.leb_spec (status res) 599); [|lia]. simpl.
  assert (E : match body res with Some _ => null_body_status (status res) | None => false end
              = false).
  { destruct Hb as [->|Hn]; [reflexivity|]. now destruct (body res). }
  rewrite E. unfold ret. now rewrite <- app_assoc.
Qed.

(** [putInCache] when the cache does not open. *)
Lemma putInCache_open_fails request res tr e :
  open_cache w (count_opens tr) = Throw e ->
  putInCache w request res tr = (Throw e, tr ++ [EvOpenCache]).
Proof.
  intros Ho. unfold putInCache, bind, openCache. now rewrite Ho.
Qed.

(** [putInCache] when the status of the response is none the
    constructor of [Response] accepts. *)
Lemma putInCache_status_refused request res tr cache :
  open_cache w (count_opens tr) = Return cache ->
  ~ (200 <= status res <= 599) ->
  putInCache w request res tr =
    (Throw (RangeError "status out of range"), tr ++ [EvOpenCache]).
Proof.
  intros Ho Hs.
  unfold putInCache, bind, openCache, addTimestampHeader, new_Response, bind.
  rewrite Ho.
  assert (E : negb ((200 <=? status res) && (status res <=? 599)) = true).
  { destruct (Z.leb_spec 200 (status res)); destruct (Z.leb_spec (status res) 599);
      simpl; try reflexivity. lia. }
  now rewrite E.
Qed.

(** A response that arrived and either is not to be cached or was handed
    to the cache is returned as it arrived. *)
Lemma handleRequest_network_response request (t : Q) res tr1 :
  run (fetchWithTimeout w this request) = (Return (Some (t, Fulfilled res)), tr1) ->
  ((validateResponse this res tr1).1 = Return false
   \/ (validateResponse this res tr1).1 = Return true
      /\ (putInCache w request res tr1).1 = Return tt) ->
  (run (handleRequest w this request)).1 = Return res.
Proof.
  intros Hf Hv.
  pose proof (network_path_fulfilled request [] tr1 t res Hf) as Hn.
  destruct Hv as [Hv|[Hv Hp]]; rewrite Hv in Hn.
  - now rewrite (handleRequest_Return _ _ _ Hn).
  - destruct (putInCache w request res tr1) as [[[]| |] tr2]; simpl in Hp; try discriminate.
    now rewrite (handleRequest_Return _ _ _ Hn).
Qed.

(** How the [put] into the cache settles plays no part in what
    [handleRequest] does: its promise is dropped. *)
Lemma putInCache_ignores_put (f : Request -> Response -> Promise unit) request res tr :
  putInCache (mkWorld (net_fetch w) (timer_fires w) (open_cache w) f (date_now w)) request res tr
  = putInCache w request res tr.
Proof.
  unfold putInCache, bind, openCache.
  simpl. destruct (open_cache w (count_opens tr)) as [cache| |]; reflexivity.
Qed.

Lemma handleRequest_ignores_put (f : Request -> Response -> Promise unit) request :
  run (handleRequest (mkWorld (net_fetch w) (timer_fires w) (open_cache w) f (date_now w))
         this request)
  = run (handleRequest w this request).
Proof.
  unfold run, handleRequest, try_catch, network_path, bind.
  change (fetchWithTimeout (mkWorld (net_fetch w) (timer_fires w) (open_cache w) f (date_now w))
            this request [])
    with (fetchWithTimeout w this request []).
  destruct (fetchWithTimeout w this request []) as [[p| |] tr1]; reflexivity.
Qed.

(** *** The properties of the design document *)

(** C2.  [validateResponse] returns true exactly when the policy is
    disabled ([false]), or the status list is empty or holds the status
    of the response and the header map is empty or every header it
    requires has the expected value in the response.  In particular,
    under the policy [{statuses: [200]}] a response with status 500 is
    refused, and no run of [handleRequest] that fetches it hands
    anything to [cache.put]; with the policy disabled a response with
    status 200 is accepted, and [handleRequest], once the fetch has
    delivered it and the cache has opened, hands its timestamped copy to
    [cache.put]. *)
Theorem C2_validateResponse_gate response tr :
  ((validateResponse this response tr).1 = Return true <->
   (cacheableResponse this = CR_false \/
    exists o, cacheableResponse this = CR_options o
              /\ status_allowed o response /\ headers_as_required o response))
  /\ (cacheableResponse this = CR_options (mkCacheable (Some [200]) None) ->
      status response = 500 ->
      validateResponse this response tr = (Return false, tr)
      /\ forall request (t : Q),
           net_fetch w request = Some (t, Fulfilled response) ->
           puts (run (handleRequest w this request)).2 = [])
  /\ (cacheableResponse this = CR_false ->
      status response = 200 ->
      validateResponse this response tr = (Return true, tr)
      /\ forall request (t : Q) tr1 cache,
           run (fetchWithTimeout w this request) = (Return (Some (t, Fulfilled response)), tr1) ->
           open_cache w 0 = Return cache ->
           puts (run (handleRequest w this request)).2 =
             [(request,
               mkResponse 200 (statusText response)
                 (headers_append (headers response) CACHE_TIMESTAMP_HEADER (pretty (date_now w)))
                 (body response))]).
Proof.
  split; [apply validateResponse_true|]. split.
  - intros Hpol Hst.
    assert (Hv : forall tr', validateResponse this response tr' = (Return false, tr')).
    { intros tr'. unfold validateResponse. rewrite Hpol. cbn. rewrite Hst. reflexivity. }
    split; [apply Hv|]. intros request t Hnet.
    destruct (fetchWithTimeout_run request) as (p & tr1 & Hf & Hp & _ & _ & Hcase).
    destruct Hcase as [->|[t' ->]].
    + rewrite Hnet in Hf.
      pose proof (network_path_fulfilled request [] tr1 t response Hf) as Hn.
      rewrite Hv in Hn. simpl in Hn.
      rewrite (handleRequest_Return _ _ _ Hn). exact Hp.
    + pose proof (network_path_rejected request [] tr1 t' _ Hf) as Hn.
      rewrite (handleRequest_catch _ _ _ Hn), fallback_puts. exact Hp.
  - intros Hpol Hst.
    assert (Hv : forall tr', validateResponse this response tr' = (Return true, tr')).
    { intros tr'. unfold validateResponse. now rewrite Hpol. }
    split; [apply Hv|]. intros request t tr1 cache Hf Ho.
    destruct (fetchWithTimeout_run request) as (p & tr1' & Hf' & Hp & Hc & _ & _).
    rewrite Hf in Hf'. injection Hf' as <- <-.
    pose proof (network_path_fulfilled request [] tr1 t response Hf) as Hn.
    rewrite Hv in Hn. simpl in Hn.
    rewrite (putInCache_run request response tr1 cache) in Hn;
      [|now rewrite Hc|rewrite Hst; lia|right; now rewrite Hst].
    rewrite (handleRequest_Return _ _ _ Hn). simpl.
    rewrite puts_app, Hp, Hst. reflexivity.
Qed.

(** C3, as the code has it.  When the promise of [fetchWithTimeout]
    rejects (the fetch failed, or the timer won the race) and the cache
    opens, [handleRequest] looks the request up: a response found is
    returned as found; when none is found, what is thrown is a plain
    [Error] (built by [new Error], with no type of its own) whose
    message is "No response received from fetch: Timeout".  In both
    cases [fetch] has been called once. *)
Theorem C3_fallback_to_cache request (t : Q) e tr1 cache :
  run (fetchWithTimeout w this request) = (Return (Some (t, Rejected e)), tr1) ->
  open_cache w 0 = Return cache ->
  let tr2 := tr1 ++ [EvOpenCache; EvMatch request] in
  (forall r, match_result cache request = Return (Some r) ->
             run (handleRequest w this request) = (Return r, tr2))
  /\ (match_result cache request = Return None ->
      run (handleRequest w this request)
      = (Throw (mkError "Error" "No response received from fetch: Timeout"), tr2))
  /\ fetches tr2 = [request].
Proof.
  intros Hf Ho tr2.
  destruct (fetchWithTimeout_run request) as (p & tr1' & Hf' & _ & Hc & Hfe & _).
  rewrite Hf in Hf'. injection Hf' as <- <-.
  pose proof (network_path_rejected request [] tr1 t e Hf) as Hn.
  rewrite <- Hc in Ho.
  split; [|split].
  - intros r Hm. rewrite (handleRequest_catch _ _ _ Hn). now apply (fallback_hit _ _ cache).
  - intros Hm. rewrite (handleRequest_catch _ _ _ Hn). now apply (fallback_miss _ _ cache).
  - unfold tr2. rewrite fetches_app, Hfe. reflexivity.
Qed.


(** C10.  Whatever makes the [try] block of [handleRequest] throw (the
    promise of [fetchWithTimeout] rejecting, with a network error or
    with the timeout error; [validateResponse] throwing on a response
    that arrived; [putInCache] throwing on a response that arrived and
    was accepted), when the cache then opens and holds no response for
    the request, [handleRequest] throws [new Error] with the message
    "No response received from fetch: Timeout" and nothing of the
    cause. *)
Theorem C10_fixed_message_whatever_the_cause request p (t : Q) res e tr1 tr2 cache :
  run (fetchWithTimeout w this request) = (Return p, tr1) ->
  (p = Some (t, Rejected e) /\ tr2 = tr1
   \/ p = Some (t, Fulfilled res) /\ validateResponse this res tr1 = (Throw e, tr2)
   \/ p = Some (t, Fulfilled res) /\ (validateResponse this res tr1).1 = Return true
      /\ putInCache w request res tr1 = (Throw e, tr2)) ->
  open_cache w (count_opens tr2) = Return cache ->
  match_result cache request = Return None ->
  run (network_path w this request) = (Throw e, tr2)
  /\ run (handleRequest w this request)
     = (Throw (mkError "Error" "No response received from fetch: Timeout"),
        tr2 ++ [EvOpenCache; EvMatch request]).
Proof.
  intros Hf Hcause Ho Hm.
  assert (Hn : run (network_path w this request) = (Throw e, tr2)).
  { destruct Hcause as [[-> ->]|[[-> Hv]|(-> & Hv & Hp)]].
    - exact (network_path_rejected request [] _ _ _ Hf).
    - unfold run. rewrite (network_path_fulfilled request [] tr1 t res Hf).
      pose proof (validateResponse_trace res tr1) as Ht. rewrite Hv in *. simpl in *.
      now subst.
    - unfold run. rewrite (network_path_fulfilled request [] tr1 t res Hf).
      now rewrite Hv, Hp. }
  split; [exact Hn|].
  rewrite (handleRequest_catch _ _ _ Hn). now apply (fallback_miss _ _ cache).
Qed.

End Facts.

(** *** Runs in the demo worlds *)

#[local] Existing Instance demo_platform.

Lemma demo_offline_rejects :
  run (fetchWithTimeout (demo_offline 5 demo_empty_cache) demo_strategy "/a")
  = (Return (Some (5%Q, Rejected (TypeError "Failed to fetch"))),
     [EvSetTimeout (mul_1000 (Finite 10)); EvFetch "/a"]).
Proof. vm_compute. reflexivity. Qed.

Lemma demo_opaque_arrives :
  run (fetchWithTimeout (demo_online 50 demo_opaque demo_empty_cache) demo_strategy "/a")
  = (Return (Some (50%Q, Fulfilled demo_opaque)),
     [EvSetTimeout (mul_1000 (Finite 10)); EvFetch "/a"]).
Proof. vm_compute. reflexivity. Qed.

Lemma demo_ok_arrives :
  run (fetchWithTimeout (demo_online 50 demo_ok demo_empty_cache) demo_strategy "/a")
  = (Return (Some (50%Q, Fulfilled demo_ok)),
     [EvSetTimeout (mul_1000 (Finite 10)); EvFetch "/a"]).
Proof. vm_compute. reflexivity. Qed.

(** C3, as stated, does not hold: with the network down and nothing in
    the cache, what [handleRequest] throws was built by [new Error]; it
    is no [NetworkFallbackError], whatever the message. *)
Lemma C3_error_is_not_a_NetworkFallbackError :
  (run (fetchWithTimeout (demo_offline 5 demo_empty_cache) demo_strategy "/a")).1
  = Return (Some (5%Q, Rejected (TypeError "Failed to fetch")))
  /\ match_result demo_empty_cache "/a" = Return None
  /\ (exists e,
        (run (handleRequest (demo_offline 5 demo_empty_cache) demo_strategy "/a")).1 = Throw e
        /\ err_name e = "Error")
  /\ ~ (exists msg,
          (run (handleRequest (demo_offline 5 demo_empty_cache) demo_strategy "/a")).1
          = Throw (mkError "NetworkFallbackError" msg)).
Proof.
  split; [vm_compute; reflexivity|]. split; [reflexivity|]. split.
  - eexists. split; vm_compute; reflexivity.
  - intros [msg H]. vm_compute in H. discriminate H.
Qed.

(** C4.  A [put] into the cache that fails does not keep
    [handleRequest] from returning the response of the network: where
    every [put] is rejected for lack of quota, the response with status
    200 is returned all the same.  But the call of [putInCache] is awaited
    inside the [try] block, so what it throws before it gets to the
    [put] is caught like a failure of the fetch.  An opaque response
    (status 0) that arrived in time, with validation disabled, is
    refused by the constructor of [Response] in [addTimestampHeader]:
    [handleRequest] then throws "No response received from fetch:
    Timeout" when the cache has nothing for the request, and returns the
    old cached response when it has.  A response with status 200 that
    arrived in time is lost in the same way when the cache fails to open
    in [putInCache]. *)
Theorem C4_network_response_lost_when_putInCache_throws :
  (run (handleRequest (demo_quota_exceeded 50 demo_ok) demo_strategy "/a")).1
  = Return demo_ok
  /\ (run (fetchWithTimeout (demo_online 50 demo_opaque demo_empty_cache) demo_strategy "/a")).1
     = Return (Some (50%Q, Fulfilled demo_opaque))
  /\ (run (handleRequest (demo_online 50 demo_opaque demo_empty_cache) demo_strategy "/a")).1
     = Throw (Error no_response_message)
  /\ (run (handleRequest (demo_online 50 demo_opaque demo_full_cache) demo_strategy "/a")).1
     = Return demo_cached
  /\ (run (fetchWithTimeout (demo_cache_unavailable demo_ok) demo_strategy "/a")).1
     = Return (Some (50%Q, Fulfilled demo_ok))
  /\ (run (handleRequest (demo_cache_unavailable demo_ok) demo_strategy "/a")).1
     = Throw (Error no_response_message).
Proof. repeat split; vm_compute; reflexivity. Qed.

Lemma C2_validateResponse_gate_witness :
  validateResponse demo_strategy_200 demo_server_error [] = (Return false, [])
  /\ puts (run (handleRequest (demo_online 50 demo_server_error demo_empty_cache)
                  demo_strategy_200 "/a")).2 = []
  /\ validateResponse demo_strategy demo_ok [] = (Return true, [])
  /\ puts (run (handleRequest (demo_online 50 demo_ok demo_empty_cache) demo_strategy "/a")).2
     = [("/a",
         @mkResponse demo_platform 200 "OK"
           [("content-type", "text/html"); ("sw-cache-timestamp", "1700000000000")]
           (Some "<html>"))].
Proof.
  pose proof (C2_validateResponse_gate (demo_online 50 demo_server_error demo_empty_cache)
                demo_strategy_200 demo_server_error []) as (_ & H500 & _).
  pose proof (C2_validateResponse_gate (demo_online 50 demo_ok demo_empty_cache)
                demo_strategy demo_ok []) as (_ & _ & H200).
  destruct (H500 eq_refl eq_refl) as [Hv Hp].
  destruct (H200 eq_refl eq_refl) as [Hv' Hp'].
  split; [exact Hv|]. split; [exact (Hp "/a" 50%Q eq_refl)|]. split; [exact Hv'|].
  exact (Hp' "/a" 50%Q _ demo_empty_cache demo_ok_arrives eq_refl).
Defined.

Lemma C3_fallback_to_cache_witness :
  run (handleRequest (demo_offline 5 demo_full_cache) demo_strategy "/a")
  = (Return demo_cached,
     [EvSetTimeout (mul_1000 (Finite 10)); EvFetch "/a"; EvOpenCache; EvMatch "/a"])
  /\ run (handleRequest (demo_offline 5 demo_empty_cache) demo_strategy "/a")
     = (Throw (mkError "Error" "No response received from fetch: Timeout"),
        [EvSetTimeout (mul_1000 (Finite 10)); EvFetch "/a"; EvOpenCache; EvMatch "/a"]).
Proof.
  split.
  - exact (proj1 (C3_fallback_to_cache (demo_offline 5 demo_full_cache) demo_strategy "/a"
                    5%Q _ _ demo_full_cache eq_refl eq_refl) demo_cached eq_refl).
  - exact (proj1 (proj2 (C3_fallback_to_cache (demo_offline 5 demo_empty_cache) demo_strategy
                           "/a" 5%Q _ _ demo_empty_cache demo_offline_rejects eq_refl))
                 eq_refl).
Defined.


Lemma C10_fixed_message_whatever_the_cause_witness :
  run (handleRequest (demo_online 50 demo_opaque demo_empty_cache) demo_strategy "/a")
  = (Throw (mkError "Error" "No response received from fetch: Timeout"),
     [EvSetTimeout (mul_1000 (Finite 10)); EvFetch "/a"; EvOpenCache; EvOpenCache; EvMatch "/a"])
  /\ run (handleRequest (demo_offline 5 demo_empty_cache) demo_strategy "/a")
     = (Throw (mkError "Error" "No response received from fetch: Timeout"),
        [EvSetTimeout (mul_1000 (Finite 10)); EvFetch "/a"; EvOpenCache; EvMatch "/a"]).
Proof.
  split.
  - refine (proj2 (C10_fixed_message_whatever_the_cause
      (demo_online 50 demo_opaque demo_empty_cache) demo_strategy "/a" _ 50%Q demo_opaque
      (RangeError "status out of range") _
      [EvSetTimeout (mul_1000 (Finite 10)); EvFetch "/a"; EvOpenCache]
      demo_empty_cache demo_opaque_arrives _ eq_refl eq_refl)).
    right. right. split; [reflexivity|]. split; reflexivity.
  - refine (proj2 (C10_fixed_message_whatever_the_cause
      (demo_offline 5 demo_empty_cache) demo_strategy "/a" _ 5%Q demo_opaque
      (TypeError "Failed to fetch") _
      [EvSetTimeout (mul_1000 (Finite 10)); EvFetch "/a"]
      demo_empty_cache demo_offline_rejects _ eq_refl eq_refl)).
    left. split; reflexivity.
Defined.

End NetworkFirstFacts.

(** ** Further laws of the queue facade *)

Module QueueStoreLaws.

Import QueueStore QueueStoreFacts.

Section Laws.

Context {Payload : Type}.

Implicit Types (d : BackgroundSyncQueueDb Payload) (s : State Payload).
Implicit Types (e x y : BackgroundSyncQueueStoreEntry Payload).
Implicit Types (l r : list (BackgroundSyncQueueStoreEntry Payload)).
Implicit Types (o : UnidentifiedQueueStoreEntry Payload).

(** *** Lists kept in key order *)

Lemma bind_Return {S A B} (m : M S A) (k : A -> M S B) (s0 s1 : S) (a : A) :
  m s0 = (Return a, s1) -> bind m k s0 = k a s1.
Proof. intros H. unfold bind. now rewrite H. Qed.

Lemma filter_insertByKey_other (f : BackgroundSyncQueueStoreEntry Payload -> bool) e l :
  f e = false -> List.filter f (insertByKey e l) = List.filter f l.
Proof.
  intros He. induction l as [|x r IH]; simpl.
  - now rewrite He.
  - destruct (e_id e <? e_id x); simpl.
    + now rewrite He.
    + now rewrite IH.
Qed.

Lemma filter_filter_comm (f g : BackgroundSyncQueueStoreEntry Payload -> bool) l :
  List.filter f (List.filter g l) = List.filter g (List.filter f l).
Proof.
  induction l as [|x r IH]; simpl; [reflexivity|].
  destruct (f x) eqn:Ef, (g x) eqn:Eg; simpl; rewrite ?Ef, ?Eg, IH; reflexivity.
Qed.

Lemma filter_all (f : BackgroundSyncQueueStoreEntry Payload -> bool) l :
  Forall (fun x => f x = true) l -> List.filter f l = l.
Proof.
  induction 1 as [|x r Hx _ IH]; simpl; [reflexivity|]. now rewrite Hx, IH.
Qed.

Lemma sorted_ids_filter (f : BackgroundSyncQueueStoreEntry Payload -> bool) l :
  sorted_ids l -> sorted_ids (List.filter f l).
Proof.
  unfold sorted_ids. induction 1 as [|x r Hr IH Hx]; simpl; [constructor|].
  destruct (f x); [|exact IH]. constructor; [exact IH|].
  apply List.Forall_forall. intros y Hy. apply List.filter_In in Hy as [Hy _].
  rewrite List.Forall_forall in Hx. auto.
Qed.

Lemma sorted_ids_last_greatest r e :
  sorted_ids (r ++ [e]) -> Forall (fun x => e_id x < e_id e) r.
Proof.
  unfold sorted_ids. induction r as [|x r IH]; simpl; intros H; [constructor|].
  inversion H as [|? ? Hs Hx]; subst. constructor.
  - rewrite List.Forall_forall in Hx. apply Hx. apply List.in_or_app. right. now left.
  - now apply IH.
Qed.

(** In a well-formed store an id names one entry. *)
Lemma sorted_ids_unique l x y :
  sorted_ids l -> In x l -> In y l -> e_id x = e_id y -> x = y.
Proof.
  unfold sorted_ids. induction 1 as [|z r Hr IH Hz]; simpl; [contradiction|].
  rewrite List.Forall_forall in Hz.
  intros [->|Hx] [->|Hy] E; auto.
  - specialize (Hz _ Hy). lia.
  - specialize (Hz _ Hx). lia.
Qed.

Lemma filter_ids_above k l :
  Forall (fun e => k < e_id e) l -> List.filter (fun e => negb (e_id e =? k)) l = l.
Proof.
  intros H. apply filter_all. eapply List.Forall_impl; [|exact H]. simpl.
  intros x Hx. destruct (Z.eqb_spec (e_id x) k); [lia|reflexivity].
Qed.

Lemma hasQueueName_inj q q' e :
  hasQueueName q e = true -> hasQueueName q' e = true -> q = q'.
Proof.
  unfold hasQueueName. destruct (e_queueName e) as [n|]; [|discriminate].
  intros H H'. apply String.eqb_eq in H, H'. congruence.
Qed.

Lemma hasQueueName_other q q' k (p : Payload) :
  q' <> q -> hasQueueName q' (mkEntry k (Some q) p) = false.
Proof.
  intros Hne. unfold hasQueueName. simpl. apply String.eqb_neq. congruence.
Qed.

(** Deleting the entry [e] of queue [q] by its id leaves the lists of the
    other queue names alone. *)
Lemma delete_other_queue d q q' e :
  db_wf d -> In e (db_getAllEntriesByQueueName q d) -> q' <> q ->
  db_getAllEntriesByQueueName q' (db_deleteEntry (e_id e) d)
  = db_getAllEntriesByQueueName q' d.
Proof.
  intros [Hs _] Hin Hne. unfold db_getAllEntriesByQueueName, db_deleteEntry in *. simpl.
  rewrite filter_filter_comm. apply filter_all. apply List.Forall_forall.
  intros x Hx. apply List.filter_In in Hx as [Hx Hq'], Hin as [Hin Hq].
  destruct (Z.eqb_spec (e_id x) (e_id e)) as [E|]; [|reflexivity].
  assert (x = e) by (eapply sorted_ids_unique; eauto). subst x.
  exfalso. apply Hne. eapply hasQueueName_inj; eauto.
Qed.

Lemma getAll_after_delete (k : Z) d q' :
  db_getAllEntriesByQueueName q' (db_deleteEntry k d)
  = List.filter (fun e => negb (e_id e =? k)) (db_getAllEntriesByQueueName q' d).
Proof. unfold db_getAllEntriesByQueueName. simpl. apply filter_filter_comm. Qed.

Lemma popEntry_run_last q s r e :
  db_getAllEntriesByQueueName q (db s) = r ++ [e] ->
  popEntry q s = (Return (Some e), mkState (heap s) (db_deleteEntry (e_id e) (db s))).
Proof.
  intros Hall. unfold popEntry, bind, getLastEntryByQueueName, db_getLastEntryByQueueName.
  rewrite Hall, List.map_app. simpl. now rewrite List.last_last.
Qed.

(** The object behind [b] after a write to [a] that kept the payload. *)
Lemma payload_after_write (h : gmap loc (UnidentifiedQueueStoreEntry Payload))
    (a b : loc) oa oa' ob :
  h !! a = Some oa -> h !! b = Some ob -> u_payload oa' = u_payload oa ->
  exists ob', <[a := oa']> h !! b = Some ob' /\ u_payload ob' = u_payload ob.
Proof.
  intros Ha Hb Hp. rewrite lookup_insert. destruct (decide (a = b)) as [->|].
  - exists oa'. split; [reflexivity|]. congruence.
  - exists ob. split; [exact Hb|reflexivity].
Qed.

(** *** Insertion *)

(** X1.  On a well-formed store [pushEntry(entry)] succeeds and stores a
    copy of the entry, without the id the caller may have given it,
    under the counter's value, which is above every id in the store: the
    entry is the new last one of [getAll()], [size()] grows by one, the
    counter moves on by one and the store stays well formed. *)
Theorem pushEntry_appends q (entry : loc) o s :
  db_wf (db s) -> heap s !! entry = Some o ->
  let new := mkEntry (db_nextId (db s)) (Some q) (u_payload o) in
  exists s',
    pushEntry q entry s = (Return tt, s')
    /\ heap s' = <[entry := mkUnidentified None (Some q) (u_payload o)]> (heap s)
    /\ db_wf (db s')
    /\ db_nextId (db s') = db_nextId (db s) + 1
    /\ Forall (fun e => e_id e < e_id new) (db_entries (db s))
    /\ db_getAllEntriesByQueueName q (db s') = db_getAllEntriesByQueueName q (db s) ++ [new]
    /\ db_getEntryCountByQueueName q (db s') = S (db_getEntryCountByQueueName q (db s)).
Proof.
  intros Hwf H new. eexists. split; [apply (pushEntry_run q entry s o Hwf H)|].
  split; [reflexivity|]. split; [apply db_wf_snoc; [exact Hwf|reflexivity]|].
  split; [reflexivity|]. split; [apply Hwf|].
  assert (E : db_getAllEntriesByQueueName q
                (mkDb (db_entries (db s) ++ [new]) (db_nextId (db s) + 1))
              = db_getAllEntriesByQueueName q (db s) ++ [new]).
  { unfold db_getAllEntriesByQueueName. simpl. rewrite List.filter_app. simpl.
    unfold new. now rewrite hasQueueName_stamped. }
  split; [exact E|].
  unfold db_getEntryCountByQueueName. simpl db. fold new. rewrite E, List.length_app. simpl. lia.
Qed.

(** X2.  A call of [pushEntry] or [unshiftEntry] on one queue name never
    changes what [getAll()] and [size()] give for another queue name,
    whatever the store and the entry are and whether the call succeeds
    or throws. *)
Theorem insertion_leaves_other_queues q q' (entry : loc) s :
  q' <> q ->
  db_getAllEntriesByQueueName q' (db (pushEntry q entry s).2)
  = db_getAllEntriesByQueueName q' (db s)
  /\ db_getAllEntriesByQueueName q' (db (unshiftEntry q entry s).2)
     = db_getAllEntriesByQueueName q' (db s)
  /\ db_getEntryCountByQueueName q' (db (pushEntry q entry s).2)
     = db_getEntryCountByQueueName q' (db s)
  /\ db_getEntryCountByQueueName q' (db (unshiftEntry q entry s).2)
     = db_getEntryCountByQueueName q' (db s).
Proof.
  intros Hne.
  assert (Hadd : forall o h, u_queueName o = Some q ->
            db_getAllEntriesByQueueName q' (db (addEntry o (mkState h (db s))).2)
            = db_getAllEntriesByQueueName q' (db s)).
  { intros o h Ho. unfold addEntry, db_addEntry. simpl.
    destruct (hasId _ _); simpl; [reflexivity|].
    unfold db_getAllEntriesByQueueName. simpl. apply filter_insertByKey_other.
    rewrite Ho. now apply hasQueueName_other. }
  assert (Hpush : db_getAllEntriesByQueueName q' (db (pushEntry q entry s).2)
                  = db_getAllEntriesByQueueName q' (db s)).
  { destruct (heap s !! entry) as [o|] eqn:H.
    - rewrite (pushEntry_unfold q entry s o H). now apply Hadd.
    - unfold pushEntry, bind, update. now rewrite H. }
  assert (Hunshift : db_getAllEntriesByQueueName q' (db (unshiftEntry q entry s).2)
                     = db_getAllEntriesByQueueName q' (db s)).
  { destruct (heap s !! entry) as [o|] eqn:H.
    - rewrite (unshiftEntry_unfold q entry s o H). now apply Hadd.
    - unfold unshiftEntry, bind, getFirstEntryId, update. destruct (truthy _); now rewrite H. }
  unfold db_getEntryCountByQueueName. rewrite Hpush, Hunshift. auto.
Qed.

(** X3.  On a well-formed store whose least id [m] is not 0 and lies
    in the range where [firstId - 1] is exact for a JavaScript number
    (above [-2^53] and at most [2^53]), [unshiftEntry(entry)] succeeds
    and stores a copy of the entry under the least id minus one, which
    is below every id in the store, whatever queue it belongs to: the
    entry is the new first one of [getAll()], [size()] grows by one, and
    the counter stays where it was. *)
Theorem unshiftEntry_prepends q (entry : loc) o s m :
  db_wf (db s) -> heap s !! entry = Some o ->
  db_getFirstEntryId (db s) = Some m -> m <> 0 ->
  - 2 ^ 53 < m <= 2 ^ 53 ->
  let new := mkEntry (m - 1) (Some q) (u_payload o) in
  exists s',
    unshiftEntry q entry s = (Return tt, s')
    /\ heap s' = <[entry := mkUnidentified (Some (m - 1)) (Some q) (u_payload o)]> (heap s)
    /\ db_wf (db s')
    /\ db_nextId (db s') = db_nextId (db s)
    /\ Forall (fun e => e_id new < e_id e) (db_entries (db s))
    /\ db_getAllEntriesByQueueName q (db s') = new :: db_getAllEntriesByQueueName q (db s)
    /\ db_getEntryCountByQueueName q (db s') = S (db_getEntryCountByQueueName q (db s)).
Proof.
  intros Hwf H Hm Hne _ new.
  destruct (db_getFirstEntryId_least _ _ Hwf Hm) as [_ Hle].
  assert (Hlt : Forall (fun e => e_id new < e_id e) (db_entries (db s))).
  { eapply List.Forall_impl; [|exact Hle]. simpl. intros; lia. }
  assert (Hn : e_id new < db_nextId (db s)).
  { destruct Hwf as [_ Hb]. unfold db_getFirstEntryId in Hm.
    destruct (db_entries (db s)) as [|x r]; [discriminate|].
    injection Hm as <-. inversion Hb; subst. simpl. lia. }
  eexists. split; [apply (unshiftEntry_run_front q entry s o m Hwf H Hm Hne)|].
  split; [reflexivity|]. split; [now apply (db_wf_cons (db s) new)|].
  split; [reflexivity|]. split; [exact Hlt|].
  assert (E : db_getAllEntriesByQueueName q (mkDb (new :: db_entries (db s)) (db_nextId (db s)))
              = new :: db_getAllEntriesByQueueName q (db s)).
  { unfold db_getAllEntriesByQueueName. simpl. unfold new at 1. now rewrite hasQueueName_stamped. }
  split; [exact E|].
  unfold db_getEntryCountByQueueName. simpl db. fold new. now rewrite E.
Qed.

(** X4.  On a store without any entry [unshiftEntry] does what
    [pushEntry] does (same result, same store, same object of the caller
    afterwards): the entry is stored under the counter's value and is
    the only entry afterwards. *)
Theorem unshiftEntry_on_empty_store q (entry : loc) o s :
  db_entries (db s) = [] -> heap s !! entry = Some o ->
  unshiftEntry q entry s = pushEntry q entry s
  /\ unshiftEntry q entry s
     = (Return tt,
        mkState (<[entry := mkUnidentified None (Some q) (u_payload o)]> (heap s))
          (mkDb [mkEntry (db_nextId (db s)) (Some q) (u_payload o)] (db_nextId (db s) + 1))).
Proof.
  intros He H.
  assert (E : unshiftEntry q entry s = pushEntry q entry s).
  { unfold unshiftEntry, pushEntry, bind at 1, getFirstEntryId, db_getFirstEntryId.
    now rewrite He. }
  split; [exact E|]. rewrite E.
  assert (Hwf : db_wf (db s)) by (split; rewrite He; constructor).
  rewrite (pushEntry_run q entry s o Hwf H). now rewrite He.
Qed.

(** *** Removal *)

(** X6.  On a well-formed store, when [getAll()] is [r ++ [e]],
    [popEntry()] returns [e], the entry with the greatest id of the
    queue; afterwards [getAll()] is [r], [size()] is one less, the lists
    of all other queue names, the counter and the caller's objects are
    as before, and the store is well formed. *)
Theorem popEntry_last q s r e :
  db_wf (db s) -> db_getAllEntriesByQueueName q (db s) = r ++ [e] ->
  exists s',
    popEntry q s = (Return (Some e), s')
    /\ heap s' = heap s
    /\ db_wf (db s')
    /\ db_nextId (db s') = db_nextId (db s)
    /\ db_getAllEntriesByQueueName q (db s') = r
    /\ (forall q', q' <> q ->
          db_getAllEntriesByQueueName q' (db s') = db_getAllEntriesByQueueName q' (db s)).
Proof.
  intros Hwf Hall.
  exists (mkState (heap s) (db_deleteEntry (e_id e) (db s))). split.
  { now apply (popEntry_run_last q s r e). }
  split; [reflexivity|]. split; [now apply db_wf_delete|]. split; [reflexivity|]. split.
  - simpl. rewrite getAll_after_delete, Hall.
    assert (Hs : sorted_ids (r ++ [e])).
    { rewrite <- Hall. apply sorted_ids_filter. apply Hwf. }
    rewrite List.filter_app, (filter_other_ids (e_id e)) by now apply sorted_ids_last_greatest.
    simpl. rewrite Z.eqb_refl. simpl. apply app_nil_r.
  - intros q' Hne. simpl. apply (delete_other_queue _ q); [exact Hwf| |exact Hne].
    rewrite Hall. apply List.in_or_app. right. now left.
Qed.

(** X7.  On a well-formed store, when [getAll()] is [e :: r],
    [shiftEntry()] returns [e], the entry with the least id of the
    queue; afterwards [getAll()] is [r], the lists of all other queue
    names, the counter and the caller's objects are as before, and the
    store is well formed. *)
Theorem shiftEntry_first q s r e :
  db_wf (db s) -> db_getAllEntriesByQueueName q (db s) = e :: r ->
  exists s',
    shiftEntry q s = (Return (Some e), s')
    /\ heap s' = heap s
    /\ db_wf (db s')
    /\ db_nextId (db s') = db_nextId (db s)
    /\ db_getAllEntriesByQueueName q (db s') = r
    /\ (forall q', q' <> q ->
          db_getAllEntriesByQueueName q' (db s') = db_getAllEntriesByQueueName q' (db s)).
Proof.
  intros Hwf Hall.
  exists (mkState (heap s) (db_deleteEntry (e_id e) (db s))). split.
  { apply (shiftEntry_head q s e r Hall). }
  split; [reflexivity|]. split; [now apply db_wf_delete|]. split; [reflexivity|]. split.
  - simpl. rewrite getAll_after_delete, Hall.
    assert (Hs : sorted_ids (e :: r)).
    { rewrite <- Hall. apply sorted_ids_filter. apply Hwf. }
    simpl. rewrite Z.eqb_refl. simpl.
    apply filter_ids_above. now apply sorted_ids_head_least.
  - intros q' Hne. simpl. apply (delete_other_queue _ q); [exact Hwf| |exact Hne].
    rewrite Hall. now left.
Qed.

(** *** Composition *)

(** X8.  LIFO law.  On a well-formed store in which the queue name has
    no entry, [pushEntry(a); pushEntry(b)] followed by three calls of
    [popEntry()] returns the entry stored for [b], then the entry stored
    for [a], then none, and the store holds afterwards what it held
    before. *)
Theorem push_pop_lifo q (a b : loc) oa ob s :
  db_wf (db s) -> queue_empty q (db s) ->
  heap s !! a = Some oa -> heap s !! b = Some ob ->
  exists s',
    (pushEntry q a ;;; pushEntry q b ;;;
     r1 <- popEntry q ;; r2 <- popEntry q ;; r3 <- popEntry q ;;
     ret (r1, r2, r3)) s
    = (Return (Some (mkEntry (db_nextId (db s) + 1) (Some q) (u_payload ob)),
               Some (mkEntry (db_nextId (db s)) (Some q) (u_payload oa)),
               None), s')
    /\ db_entries (db s') = db_entries (db s).
Proof.
  intros Hwf He Ha Hb.
  set (k := db_nextId (db s)).
  set (ea := mkEntry k (Some q) (u_payload oa)).
  set (eb := mkEntry (k + 1) (Some q) (u_payload ob)).
  assert (Hlt : Forall (fun e => e_id e < k) (db_entries (db s))) by apply Hwf.
  assert (Hlt' : Forall (fun e => e_id e < k + 1) (db_entries (db s))).
  { eapply List.Forall_impl; [|exact Hlt]. simpl. intros; lia. }
  unfold queue_empty, db_getAllEntriesByQueueName in He.
  rewrite (bind_Return _ _ _ _ _ (pushEntry_run q a s oa Hwf Ha)). fold k ea.
  set (s1 := mkState _ _).
  assert (Hwf1 : db_wf (db s1)) by (apply db_wf_snoc; [exact Hwf|reflexivity]).
  destruct (payload_after_write (heap s) a b oa
              (mkUnidentified None (Some q) (u_payload oa)) ob Ha Hb eq_refl)
    as (ob' & Hb1 & Hp).
  rewrite (bind_Return _ _ _ _ _ (pushEntry_run q b s1 ob' Hwf1 Hb1)). rewrite Hp.
  simpl db_entries. simpl db_nextId. fold k eb.
  set (s2 := mkState _ _).
  assert (Hall2 : db_getAllEntriesByQueueName q (db s2) = [ea] ++ [eb]).
  { unfold db_getAllEntriesByQueueName, s2. simpl.
    rewrite !List.filter_app. simpl. rewrite He. unfold ea, eb.
    now rewrite !hasQueueName_stamped. }
  rewrite (bind_Return _ _ _ _ _ (popEntry_run_last q s2 [ea] eb Hall2)).
  set (s3 := mkState _ _).
  assert (Hd3 : db_entries (db s3) = db_entries (db s) ++ [ea]).
  { unfold s3, s2, db_deleteEntry. cbn [db db_entries heap e_id eb].
    rewrite !List.filter_app, (filter_other_ids (k + 1)) by exact Hlt'.
    simpl. rewrite Z.eqb_refl. simpl.
    destruct (Z.eqb_spec k (k + 1)); [lia|]. simpl. now rewrite app_nil_r. }
  assert (Hall3 : db_getAllEntriesByQueueName q (db s3) = [] ++ [ea]).
  { unfold db_getAllEntriesByQueueName. rewrite Hd3, List.filter_app. simpl. rewrite He.
    unfold ea. now rewrite hasQueueName_stamped. }
  rewrite (bind_Return _ _ _ _ _ (popEntry_run_last q s3 [] ea Hall3)).
  set (s4 := mkState _ _).
  assert (Hd4 : db_entries (db s4) = db_entries (db s)).
  { unfold s4, db_deleteEntry. cbn [db db_entries].
    rewrite Hd3, List.filter_app, (filter_other_ids k) by exact Hlt.
    simpl. rewrite Z.eqb_refl. simpl. apply app_nil_r. }
  assert (He4 : queue_empty q (db s4)).
  { unfold queue_empty, db_getAllEntriesByQueueName. rewrite Hd4. exact He. }
  rewrite (bind_Return _ _ _ _ _ (popEntry_empty q s4 He4)).
  exists s4. split; [reflexivity|exact Hd4].
Qed.

(** X9.  An id is not used again after its entry is gone: on a
    well-formed store, [pushEntry(a); popEntry(); pushEntry(b)] gives
    back the entry stored for [a], and [b] is then stored under the id
    after that of [a], not under the id that has become free; [getAll()]
    is what it was before, followed by the entry of [b]. *)
Theorem id_not_reused_after_pop q (a b : loc) oa ob s :
  db_wf (db s) -> heap s !! a = Some oa -> heap s !! b = Some ob ->
  ((pushEntry q a ;;; r <- popEntry q ;; pushEntry q b ;;;
    all <- getAll q ;; ret (r, all)) s).1
  = Return (Some (mkEntry (db_nextId (db s)) (Some q) (u_payload oa)),
            db_getAllEntriesByQueueName q (db s)
            ++ [mkEntry (db_nextId (db s) + 1) (Some q) (u_payload ob)]).
Proof.
  intros Hwf Ha Hb.
  set (k := db_nextId (db s)).
  set (ea := mkEntry k (Some q) (u_payload oa)).
  assert (Hlt : Forall (fun e => e_id e < k) (db_entries (db s))) by apply Hwf.
  rewrite (bind_Return _ _ _ _ _ (pushEntry_run q a s oa Hwf Ha)). fold k ea.
  set (s1 := mkState _ _).
  assert (Hall1 : db_getAllEntriesByQueueName q (db s1)
                  = db_getAllEntriesByQueueName q (db s) ++ [ea]).
  { unfold db_getAllEntriesByQueueName, s1. simpl. rewrite List.filter_app. simpl.
    unfold ea. now rewrite hasQueueName_stamped. }
  rewrite (bind_Return _ _ _ _ _ (popEntry_run_last q s1 _ ea Hall1)).
  set (s2 := mkState _ _).
  assert (Hd2 : db s2 = mkDb (db_entries (db s)) (k + 1)).
  { unfold s2, s1, db_deleteEntry. cbn [db db_entries db_nextId heap e_id ea].
    rewrite List.filter_app, (filter_other_ids k) by exact Hlt.
    simpl. rewrite Z.eqb_refl. simpl. now rewrite app_nil_r. }
  assert (Hwf2 : db_wf (db s2)).
  { rewrite Hd2. split; simpl; [apply Hwf|].
    eapply List.Forall_impl; [|exact Hlt]. simpl. intros; lia. }
  destruct (payload_after_write (heap s) a b oa
              (mkUnidentified None (Some q) (u_payload oa)) ob Ha Hb eq_refl)
    as (ob' & Hb2 & Hp).
  rewrite (bind_Return _ _ _ _ _ (pushEntry_run q b s2 ob' Hwf2 Hb2)). rewrite Hp, Hd2.
  unfold bind, getAll, getAllEntriesByQueueName, db_getAllEntriesByQueueName. simpl.
  now rewrite List.filter_app; simpl; rewrite hasQueueName_stamped.
Qed.

(** *** What every sequence of calls keeps *)

Lemma after_call_wf (c : Call Payload) s : db_wf (db s) -> db_wf (db (after_call c s)).
Proof.
  intros Hwf. destruct c; simpl after_call.
  - now apply pushEntry_wf.
  - now apply unshiftEntry_wf.
  - now apply popEntry_wf.
  - now apply shiftEntry_wf.
  - exact Hwf.
  - exact Hwf.
  - now apply deleteEntry_wf.
  - exact Hwf.
Qed.

Lemma after_calls_wf (cs : list (Call Payload)) s :
  db_wf (db s) -> db_wf (db (after_calls cs s)).
Proof.
  revert s. induction cs as [|c cs IH]; intros s Hwf; simpl; [exact Hwf|].
  apply IH. now apply after_call_wf.
Qed.

Lemma within_mono (n n' : Z) s : within n s -> n <= n' -> within n' s.
Proof.
  intros (Hwf & Hc & Hall) Hle. split; [exact Hwf|]. split; [lia|].
  eapply List.Forall_impl; [|exact Hall]. simpl. intros e [H1 H2]. split; [lia|exact H2].
Qed.

Lemma within_heap (n : Z) s (h : gmap loc (UnidentifiedQueueStoreEntry Payload)) :
  within n s -> within n (mkState h (db s)).
Proof. intros H. exact H. Qed.

Lemma within_delete (n : Z) s (k : Z) :
  within n s -> within n (mkState (heap s) (db_deleteEntry k (db s))).
Proof.
  intros (Hwf & Hc & Hall). split; [now apply db_wf_delete|]. split; [exact Hc|].
  simpl. apply List.Forall_forall. intros y Hy. apply List.filter_In in Hy as [Hy _].
  rewrite List.Forall_forall in Hall. auto.
Qed.

Lemma within_snoc (n : Z) s (h : gmap loc (UnidentifiedQueueStoreEntry Payload)) q (p : Payload) :
  0 <= n -> within n s ->
  within (n + 1)
    (mkState h (mkDb (db_entries (db s) ++ [mkEntry (db_nextId (db s)) (Some q) p])
                     (db_nextId (db s) + 1))).
Proof.
  intros Hn (Hwf & Hc & Hall). split; [apply db_wf_snoc; [exact Hwf|reflexivity]|].
  split; [simpl; lia|]. simpl. apply Forall_app. split.
  - eapply List.Forall_impl; [|exact Hall]. simpl. intros e [H1 H2]. split; [lia|exact H2].
  - constructor; [|constructor]. simpl. split; [lia|discriminate].
Qed.

Lemma within_cons (n : Z) s (h : gmap loc (UnidentifiedQueueStoreEntry Payload)) q (p : Payload) m :
  0 <= n -> within n s -> db_getFirstEntryId (db s) = Some m ->
  within (n + 1)
    (mkState h (mkDb (mkEntry (m - 1) (Some q) p :: db_entries (db s)) (db_nextId (db s)))).
Proof.
  intros Hn (Hwf & Hc & Hall) Hm.
  destruct (db_getFirstEntryId_least _ _ Hwf Hm) as [_ Hle].
  assert (Hm' : - n < m /\ m < db_nextId (db s)).
  { destruct Hwf as [_ Hb]. unfold db_getFirstEntryId in Hm.
    destruct (db_entries (db s)) as [|x r]; [discriminate|].
    injection Hm as <-. inversion Hb; subst. inversion Hall as [|? ? [Hx _] _]; subst. lia. }
  split; [|split].
  - apply (db_wf_cons (db s) (mkEntry (m - 1) (Some q) p)); [exact Hwf| |simpl; lia].
    eapply List.Forall_impl; [|exact Hle]. simpl. intros; lia.
  - simpl. lia.
  - simpl. constructor.
    + simpl. split; [lia|discriminate].
    + eapply List.Forall_impl; [|exact Hall]. simpl. intros e [H1 H2]. split; [lia|exact H2].
Qed.

Lemma pushEntry_undefined q (entry : loc) s :
  heap s !! entry = None -> (pushEntry q entry s).2 = s.
Proof. intros H. unfold pushEntry, bind, update. now rewrite H. Qed.

Lemma unshiftEntry_undefined q (entry : loc) s :
  heap s !! entry = None -> (unshiftEntry q entry s).2 = s.
Proof.
  intros H. unfold unshiftEntry, bind, getFirstEntryId, update. destruct (truthy _); now rewrite H.
Qed.

Lemma within_pushEntry (n : Z) q (entry : loc) s :
  0 <= n -> within n s -> within (n + 1) (pushEntry q entry s).2.
Proof.
  intros Hn Hw. destruct (heap s !! entry) as [o|] eqn:H.
  - rewrite (pushEntry_run q entry s o (proj1 Hw) H). now apply within_snoc.
  - rewrite (pushEntry_undefined q entry s H). apply (within_mono n); [exact Hw|lia].
Qed.

Lemma within_unshiftEntry (n : Z) q (entry : loc) s :
  0 <= n -> within n s -> within (n + 1) (unshiftEntry q entry s).2.
Proof.
  intros Hn Hw. destruct (heap s !! entry) as [o|] eqn:H.
  - destruct (truthy (db_getFirstEntryId (db s))) eqn:Ht.
    + destruct (db_getFirstEntryId (db s)) as [m|] eqn:Hm; [|discriminate].
      assert (Hne : m <> 0) by (simpl in Ht; destruct (Z.eqb_spec m 0); [discriminate|assumption]).
      rewrite (unshiftEntry_run_front q entry s o m (proj1 Hw) H Hm Hne).
      now apply within_cons.
    + rewrite (unshiftEntry_run_auto q entry s o (proj1 Hw) H Ht). now apply within_snoc.
  - rewrite (unshiftEntry_undefined q entry s H). apply (within_mono n); [exact Hw|lia].
Qed.

Lemma within__removeEntry (n : Z) oe s : within n s -> within n (_removeEntry oe s).2.
Proof.
  intros Hw. destruct oe as [e|]; [|exact Hw].
  rewrite _removeEntry_Some. now apply within_delete.
Qed.

Lemma within_after_call (n : Z) (c : Call Payload) s :
  0 <= n -> within n s -> within (n + 1) (after_call c s).
Proof.
  intros Hn Hw. destruct c; simpl after_call.
  - now apply within_pushEntry.
  - now apply within_unshiftEntry.
  - apply (within_mono n); [|lia]. unfold popEntry, bind, getLastEntryByQueueName.
    now apply within__removeEntry.
  - apply (within_mono n); [|lia]. unfold shiftEntry, bind, getFirstEntryByQueueName.
    now apply within__removeEntry.
  - apply (within_mono n); [exact Hw|lia].
  - apply (within_mono n); [exact Hw|lia].
  - apply (within_mono n); [|lia]. now apply within_delete.
  - apply (within_mono n); [exact Hw|lia].
Qed.

Lemma within_after_calls (cs : list (Call Payload)) (n : Z) s :
  0 <= n -> within n s -> within (n + Z.of_nat (List.length cs)) (after_calls cs s).
Proof.
  revert n s. induction cs as [|c cs IH]; intros n s Hn Hw.
  - simpl. now rewrite Z.add_0_r.
  - change (after_calls (c :: cs) s) with (after_calls cs (after_call c s)).
    replace (n + Z.of_nat (List.length (c :: cs))) with ((n + 1) + Z.of_nat (List.length cs))
      by (simpl List.length; lia).
    apply IH; [lia|]. now apply within_after_call.
Qed.

Lemma within_fresh (h : gmap loc (UnidentifiedQueueStoreEntry Payload)) :
  within 0 (mkState h emptyDb).
Proof.
  split; [apply emptyDb_wf|]. split; [simpl; lia|]. constructor.
Qed.

(** X10.  An insertion through the facade never runs into an id that is
    taken.  After any sequence of fewer than [2^53] steps on a fresh
    database (calls of any method for any queue name, succeeding or
    throwing, and writes of the caller to its own objects), every id in
    the store lies strictly between [-2^53] and [2^53], where the
    arithmetic of [unshiftEntry] is exact, every entry has a queue name,
    and both [pushEntry(entry)] and [unshiftEntry(entry)] return
    normally for every object of the caller, whatever id and queue name
    the caller has written into it.  This rests on [pushEntry] deleting
    the caller's id, on [unshiftEntry] taking the least id minus one or
    no id, and on both stamping the queue name: the database itself
    refuses a second entry under an id. *)
Theorem insertion_never_collides (cs : list (Call Payload))
    (h : gmap loc (UnidentifiedQueueStoreEntry Payload)) q (entry : loc) o :
  Z.of_nat (List.length cs) < 2 ^ 53 ->
  let s := after_calls cs (mkState h emptyDb) in
  heap s !! entry = Some o ->
  Forall (fun e => - 2 ^ 53 < e_id e < 2 ^ 53 /\ e_queueName e <> None) (db_entries (db s))
  /\ (pushEntry q entry s).1 = Return tt
  /\ (unshiftEntry q entry s).1 = Return tt.
Proof.
  intros Hlen s H.
  pose proof (within_after_calls cs 0 (mkState h emptyDb) (Z.le_refl 0) (within_fresh h)) as Hw.
  fold s in Hw. destruct Hw as (Hwf & Hc & Hall). split; [|split].
  - pose proof (proj2 Hwf) as Hb. rewrite List.Forall_forall in Hall, Hb.
    apply List.Forall_forall. intros e He.
    destruct (Hall e He) as [H1 H2]. specialize (Hb e He). simpl in Hb. repeat split; [lia|lia|exact H2].
  - now rewrite (pushEntry_run q entry s o Hwf H).
  - destruct (truthy (db_getFirstEntryId (db s))) eqn:Ht.
    + destruct (db_getFirstEntryId (db s)) as [m|] eqn:Hm; [|discriminate].
      assert (Hne : m <> 0) by (simpl in Ht; destruct (Z.eqb_spec m 0); [discriminate|assumption]).
      now rewrite (unshiftEntry_run_front q entry s o m Hwf H Hm Hne).
    + now rewrite (unshiftEntry_run_auto q entry s o Hwf H Ht).
Qed.

(** The database does refuse an id that is taken: [addEntry] of an
    object that carries the id of a stored entry fails and changes
    nothing. *)
Lemma addEntry_refuses_taken_id (q : string) (p : Payload) (d : BackgroundSyncQueueDb Payload) k :
  hasId k (db_entries d) = true ->
  db_addEntry (mkUnidentified (Some k) (Some q) p) d
  = (Throw (StorageError "transaction aborted"), d).
Proof. intros H. unfold db_addEntry. simpl. now rewrite H. Qed.

End Laws.

(** *** Runs on the demo stores *)

Lemma demo_db_three_wf : db_wf demo_db_three.
Proof.
  split; simpl.
  - repeat constructor.
  - repeat constructor.
Qed.

Lemma pushEntry_appends_witness :
  exists s',
    pushEntry "X" 1%positive demo_three = (Return tt, s')
    /\ db_getAllEntriesByQueueName "X" (db s')
       = [mkEntry 1 (Some "X") "x1"; mkEntry 3 (Some "X") "x3"; mkEntry 4 (Some "X") "x"].
Proof.
  destruct (pushEntry_appends "X" 1%positive _ demo_three demo_db_three_wf demo_heap_1)
    as (s' & Hrun & _ & _ & _ & _ & Hall & _).
  exists s'. split; [exact Hrun|exact Hall].
Defined.

Lemma insertion_leaves_other_queues_witness :
  db_getAllEntriesByQueueName "Y" (db (pushEntry "X" 1%positive demo_three).2)
  = [mkEntry 2 (Some "Y") "y2"]
  /\ db_getAllEntriesByQueueName "Y" (db (unshiftEntry "X" 1%positive demo_three).2)
     = [mkEntry 2 (Some "Y") "y2"].
Proof.
  assert (Hne : "Y" <> "X") by discriminate.
  destruct (insertion_leaves_other_queues "X" "Y" 1%positive demo_three Hne)
    as (Hp & Hu & _).
  split; [exact Hp|exact Hu].
Defined.

Lemma unshiftEntry_prepends_witness :
  exists s',
    unshiftEntry "Y" 3%positive demo_three = (Return tt, s')
    /\ db_getAllEntriesByQueueName "Y" (db s')
       = [mkEntry 0 (Some "Y") "a"; mkEntry 2 (Some "Y") "y2"].
Proof.
  assert (Hne : 1 <> 0) by discriminate.
  assert (Hrange : - 2 ^ 53 < 1 <= 2 ^ 53) by (split; [reflexivity|discriminate]).
  destruct (unshiftEntry_prepends "Y" 3%positive _ demo_three 1 demo_db_three_wf demo_heap_3
              eq_refl Hne Hrange)
    as (s' & Hrun & _ & _ & _ & _ & Hall & _).
  exists s'. split; [exact Hrun|exact Hall].
Defined.

Lemma unshiftEntry_on_empty_store_witness :
  unshiftEntry "X" 3%positive demo_fresh = pushEntry "X" 3%positive demo_fresh
  /\ db (unshiftEntry "X" 3%positive demo_fresh).2 = mkDb [mkEntry 1 (Some "X") "a"] 2.
Proof.
  destruct (unshiftEntry_on_empty_store "X" 3%positive _ demo_fresh eq_refl demo_heap_3)
    as [E R].
  split; [exact E|]. rewrite R. reflexivity.
Defined.

Lemma popEntry_last_witness :
  exists s',
    popEntry "X" demo_three = (Return (Some (mkEntry 3 (Some "X") "x3")), s')
    /\ db_getAllEntriesByQueueName "X" (db s') = [mkEntry 1 (Some "X") "x1"].
Proof.
  destruct (popEntry_last "X" demo_three [mkEntry 1 (Some "X") "x1"] (mkEntry 3 (Some "X") "x3")
              demo_db_three_wf eq_refl)
    as (s' & Hrun & _ & _ & _ & Hall & _).
  exists s'. split; [exact Hrun|exact Hall].
Defined.

Lemma shiftEntry_first_witness :
  exists s',
    shiftEntry "X" demo_three = (Return (Some (mkEntry 1 (Some "X") "x1")), s')
    /\ db_getAllEntriesByQueueName "X" (db s') = [mkEntry 3 (Some "X") "x3"].
Proof.
  destruct (shiftEntry_first "X" demo_three [mkEntry 3 (Some "X") "x3"] (mkEntry 1 (Some "X") "x1")
              demo_db_three_wf eq_refl)
    as (s' & Hrun & _ & _ & _ & Hall & _).
  exists s'. split; [exact Hrun|exact Hall].
Defined.

Lemma demo_steps_object :
  heap (after_calls [Call_pushEntry "X" 1%positive; Call_unshiftEntry "X" 2%positive;
                     Caller_writes 3%positive (mkUnidentified (Some 0) None "a")]
          (mkState demo_heap emptyDb)) !! 3%positive
  = Some (mkUnidentified (Some 0) None "a").
Proof. vm_compute. reflexivity. Qed.

Lemma insertion_never_collides_witness :
  let s := after_calls [Call_pushEntry "X" 1%positive; Call_unshiftEntry "X" 2%positive;
                        Caller_writes 3%positive (mkUnidentified (Some 0) None "a")]
             (mkState demo_heap emptyDb) in
  hasId 0 (db_entries (db s)) = true
  /\ (pushEntry "Y" 3%positive s).1 = Return tt
  /\ (unshiftEntry "Y" 3%positive s).1 = Return tt.
Proof.
  intros s. split; [vm_compute; reflexivity|].
  exact (proj2 (insertion_never_collides
                  [Call_pushEntry "X" 1%positive; Call_unshiftEntry "X" 2%positive;
                   Caller_writes 3%positive (mkUnidentified (Some 0) None "a")]
                  demo_heap "Y" 3%positive _ eq_refl demo_steps_object)).
Defined.

Lemma push_pop_lifo_witness :
  exists s',
    (pushEntry "Y" 3%positive ;;; pushEntry "Y" 4%positive ;;;
     r1 <- popEntry "Y" ;; r2 <- popEntry "Y" ;; r3 <- popEntry "Y" ;;
     ret (r1, r2, r3)) demo_zero
    = (Return (Some (mkEntry 3 (Some "Y") "b"), Some (mkEntry 2 (Some "Y") "a"), None), s')
    /\ db_entries (db s') = [mkEntry 0 (Some "X") "y"].
Proof.
  exact (push_pop_lifo "Y" 3%positive 4%positive _ _ demo_zero
           demo_db_zero_wf demo_db_zero_Y_empty demo_heap_3 demo_heap_4).
Defined.

Lemma id_not_reused_after_pop_witness :
  ((pushEntry "X" 3%positive ;;; r <- popEntry "X" ;; pushEntry "X" 4%positive ;;;
    all <- getAll "X" ;; ret (r, all)) demo_three).1
  = Return (Some (mkEntry 4 (Some "X") "a"),
            [mkEntry 1 (Some "X") "x1"; mkEntry 3 (Some "X") "x3"; mkEntry 5 (Some "X") "b"]).
Proof.
  exact (id_not_reused_after_pop "X" 3%positive 4%positive _ _ demo_three
           demo_db_three_wf demo_heap_3 demo_heap_4).
Defined.

End QueueStoreLaws.

(** ** Further laws of the network-first strategy *)

Module NetworkFirstLaws.

Import NetworkFirst NetworkFirstFacts.

Section Laws.

Context {platform : Platform}.
Variable w : World.
Variable this : NetworkFirst.

Implicit Types (request : Request) (response res : Response) (tr : Trace).
Implicit Types (p : Promise Response) (e : JsError) (cache : CacheHandle).

(** *** The shape of a run *)

Lemma count_opens_app tr tr' : count_opens (tr ++ tr') = (count_opens tr + count_opens tr')%nat.
Proof. unfold count_opens. now rewrite List.filter_app, List.length_app. Qed.

(** [addTimestampHeader] makes no call; it returns the timestamped copy
    of a response the constructor accepts and throws on any other. *)
Lemma addTimestampHeader_run res tr :
  if copyable res
  then addTimestampHeader w res tr = (Return (timestamped w res), tr)
  else exists e, addTimestampHeader w res tr = (Throw e, tr).
Proof.
  unfold copyable, addTimestampHeader, new_Response, bind, timestamped.
  destruct ((200 <=? status res) && (status res <=? 599)); simpl.
  - destruct (match body res with Some _ => _ | None => _ end); simpl; eauto.
  - eauto.
Qed.

(** [putInCache] opens the cache once; it either hands the timestamped
    copy to [put] and returns, or stops before the [put]. *)
Lemma putInCache_shape request res tr :
  (putInCache w request res tr
   = (Return tt, tr ++ [EvOpenCache; EvPut request (timestamped w res)])
   /\ copyable res = true
   /\ exists cache, open_cache w (count_opens tr) = Return cache)
  \/ (exists c, putInCache w request res tr = (c, tr ++ [EvOpenCache])
                /\ c <> Return tt
                /\ (c = Hang -> open_cache w (count_opens tr) = Hang)).
Proof.
  assert (Hopen : openCache w tr = (open_cache w (count_opens tr), tr ++ [EvOpenCache]))
    by reflexivity.
  unfold putInCache.
  destruct (open_cache w (count_opens tr)) as [cache| |] eqn:Ho.
  - rewrite (QueueStoreLaws.bind_Return _ _ _ _ _ Hopen).
    pose proof (addTimestampHeader_run res (tr ++ [EvOpenCache])) as Ha.
    destruct (copyable res).
    + left. rewrite (QueueStoreLaws.bind_Return _ _ _ _ _ Ha).
      unfold bind, cache_put, emit, bind, ret. simpl.
      rewrite <- app_assoc. eauto.
    + right. destruct Ha as [e Ha]. exists (Throw e). unfold bind at 1. rewrite Ha.
      split; [reflexivity|]. split; discriminate.
  - right. exists (Throw e). unfold bind. rewrite Hopen.
    split; [reflexivity|]. split; discriminate.
  - right. exists Hang. unfold bind. rewrite Hopen.
    split; [reflexivity|]. split; [discriminate|reflexivity].
Qed.

(** The fallback opens the cache once and, when it opens, looks the
    request up once. *)
Lemma fallback_shape request tr :
  (exists e, open_cache w (count_opens tr) = Throw e
             /\ fallback w request tr = (Throw e, tr ++ [EvOpenCache]))
  \/ (open_cache w (count_opens tr) = Hang
      /\ fallback w request tr = (Hang, tr ++ [EvOpenCache]))
  \/ (exists cache, open_cache w (count_opens tr) = Return cache
        /\ fallback w request tr
           = (match match_result cache request with
              | Return (Some r) => Return r
              | Return None => Throw (Error no_response_message)
              | Throw e => Throw e
              | Hang => Hang
              end, tr ++ [EvOpenCache; EvMatch request])).
Proof.
  unfold fallback, bind, openCache, cache_match, emit, bind, lift, ret.
  destruct (open_cache w (count_opens tr)) as [cache| |] eqn:Ho.
  - right. right. exists cache. split; [reflexivity|]. simpl. rewrite <- app_assoc.
    destruct (match_result cache request) as [[r|]| |]; reflexivity.
  - left. eauto.
  - right. left. eauto.
Qed.

(** Every run of [handleRequest], by what the promise of
    [fetchWithTimeout] does and what validation and the cache write
    make of a response that arrived. *)
Lemma handleRequest_runs request :
  exists p tr1,
    run (fetchWithTimeout w this request) = (Return p, tr1)
    /\ puts tr1 = [] /\ count_opens tr1 = 0%nat /\ fetches tr1 = [request]
    /\ match p with
       | None => run (handleRequest w this request) = (Hang, tr1)
       | Some (_, Rejected e) => run (handleRequest w this request) = fallback w request tr1
       | Some (_, Fulfilled res) =>
           match (validateResponse this res tr1).1 with
           | Return false => run (handleRequest w this request) = (Return res, tr1)
           | Return true =>
               match putInCache w request res tr1 with
               | (Return _, tr2) => run (handleRequest w this request) = (Return res, tr2)
               | (Throw _, tr2) => run (handleRequest w this request) = fallback w request tr2
               | (Hang, tr2) => run (handleRequest w this request) = (Hang, tr2)
               end
           | Throw _ => run (handleRequest w this request) = fallback w request tr1
           | Hang => run (handleRequest w this request) = (Hang, tr1)
           end
       end.
Proof.
  destruct (fetchWithTimeout_run w this request) as (p & tr1 & Hf & Hp & Hc & Hfe & _).
  exists p, tr1. split; [exact Hf|]. split; [exact Hp|]. split; [exact Hc|]. split; [exact Hfe|].
  destruct p as [[t [res|e]]|].
  - pose proof (network_path_fulfilled w this request [] tr1 t res Hf) as Hn.
    destruct ((validateResponse this res tr1).1) as [[|]| |].
    + destruct (putInCache w request res tr1) as [[[]| |] tr2].
      * now apply handleRequest_Return.
      * now apply (handleRequest_catch w this request e).
      * now apply handleRequest_Hang.
    + now apply handleRequest_Return.
    + now apply (handleRequest_catch w this request e).
    + now apply handleRequest_Hang.
  - apply (handleRequest_catch w this request e).
    exact (network_path_rejected w this request [] tr1 t e Hf).
  - apply handleRequest_Hang. exact (network_path_pending w this request [] tr1 Hf).
Qed.

Lemma fallback_fetches request tr : fetches (fallback w request tr).2 = fetches tr.
Proof.
  destruct (fallback_shape request tr) as [(e & _ & ->)|[[_ ->]|(cache & _ & ->)]]; simpl;
    rewrite fetches_app; simpl; apply app_nil_r.
Qed.

Lemma putInCache_fetches request res tr : fetches (putInCache w request res tr).2 = fetches tr.
Proof.
  destruct (putInCache_shape request res tr) as [(-> & _)|(c & -> & _)]; simpl;
    rewrite fetches_app; simpl; apply app_nil_r.
Qed.

Lemma every_header_settles response entries tr :
  (forall h k, headers_get h k <> Hang) -> (every_header response entries tr).1 <> Hang.
Proof.
  intros Hg. induction entries as [|[key value] rest IH]; simpl; [discriminate|].
  unfold bind, lift. pose proof (Hg (headers response) key) as Hk.
  destruct (headers_get (headers response) key) as [[v|]| |]; simpl; try discriminate.
  - destruct (String.eqb v value); [exact IH|discriminate].
  - contradiction.
Qed.

Lemma validateResponse_settles response tr :
  (forall h k, headers_get h k <> Hang) -> (validateResponse this response tr).1 <> Hang.
Proof.
  intros Hg. unfold validateResponse. destruct (cacheableResponse this) as [|o]; [discriminate|].
  cbv zeta. unfold bind. destruct (0 <? List.length (default [] (cr_headers o)))%nat.
  - pose proof (every_header_settles response (default [] (cr_headers o)) tr Hg) as H.
    destruct (every_header response (default [] (cr_headers o)) tr) as [[b| |] tr'];
      simpl in *; try discriminate. contradiction.
  - discriminate.
Qed.

(** *** Laws *)

(** X11.  Every run of [handleRequest], however it ends, calls [fetch]
    exactly once, with the request it was given: nothing is fetched
    again after a failure, a timeout or a refused response. *)
Theorem handleRequest_fetches_once request :
  fetches (run (handleRequest w this request)).2 = [request].
Proof.
  destruct (handleRequest_runs request) as (p & tr1 & _ & _ & _ & Hfe & Hrun).
  destruct p as [[t [res|e]]|].
  - destruct ((validateResponse this res tr1).1) as [[|]| |].
    + pose proof (putInCache_fetches request res tr1) as Hp.
      destruct (putInCache w request res tr1) as [[[]| |] tr2]; simpl in Hp; rewrite Hrun;
        rewrite ?fallback_fetches; simpl; congruence.
    + now rewrite Hrun.
    + now rewrite Hrun, fallback_fetches.
    + now rewrite Hrun.
  - now rewrite Hrun, fallback_fetches.
  - now rewrite Hrun.
Qed.

(** X12.  A run of [handleRequest] calls [cache.put] at most once, and
    when it does, the promise of [fetchWithTimeout] was fulfilled with a
    response that [validateResponse] accepted, and what is put, under
    the request itself, is the timestamped copy of that response.  So
    nothing is put when the timer wins the race, when the fetch fails
    and when the response is refused. *)
Theorem handleRequest_puts_at_most_once request :
  puts (run (handleRequest w this request)).2 = []
  \/ exists (t : Q) res tr1,
       run (fetchWithTimeout w this request) = (Return (Some (t, Fulfilled res)), tr1)
       /\ (validateResponse this res tr1).1 = Return true
       /\ copyable res = true
       /\ puts (run (handleRequest w this request)).2 = [(request, timestamped w res)].
Proof.
  destruct (handleRequest_runs request) as (p & tr1 & Hf & Hp & _ & _ & Hrun).
  destruct p as [[t [res|e]]|].
  - destruct ((validateResponse this res tr1).1) as [[|]| |] eqn:Hv.
    + destruct (putInCache_shape request res tr1) as [(Hput & Hc & _)|(c & Hput & Hne & _)];
        rewrite Hput in Hrun.
      * right. exists t, res, tr1. rewrite Hrun. simpl. rewrite puts_app, Hp. auto.
      * left. destruct c as [[]| |]; [contradiction| |]; rewrite Hrun;
          rewrite ?fallback_puts; simpl; rewrite puts_app, Hp; reflexivity.
    + left. now rewrite Hrun.
    + left. now rewrite Hrun, fallback_puts.
    + left. now rewrite Hrun.
  - left. now rewrite Hrun, fallback_puts.
  - left. now rewrite Hrun.
Qed.

(** X13.  With a timeout other than [Infinity] (a finite number, or
    [NaN] or [-Infinity], for which a timer is armed all the same)
    [handleRequest] settles, with a response or an error, whatever the
    network does, as long as opening the cache and looking the request
    up in it settle. *)
Theorem handleRequest_settles request :
  neq_Infinity (networkTimeoutSeconds this) = true ->
  (forall n, open_cache w n <> Hang) ->
  (forall n cache, open_cache w n = Return cache -> match_result cache request <> Hang) ->
  (forall h k, headers_get h k <> Hang) ->
  (run (handleRequest w this request)).1 <> Hang.
Proof.
  intros Hne Ho Hm Hg.
  assert (Hfb : forall tr, (fallback w request tr).1 <> Hang).
  { intros tr. destruct (fallback_shape request tr) as [(e & _ & ->)|[[H _]|(cache & Hc & ->)]].
    - discriminate.
    - now apply Ho in H.
    - simpl. pose proof (Hm _ _ Hc).
      destruct (match_result cache request) as [[r|]| |]; try discriminate. contradiction. }
  destruct (handleRequest_runs request) as (p & tr1 & Hf & _ & _ & _ & Hrun).
  unfold run in Hf. rewrite (fetchWithTimeout_timer w this request [] Hne) in Hf.
  injection Hf as Hp _.
  destruct p as [[t [res|e]]|].
  - pose proof (validateResponse_settles res tr1 Hg) as Hv.
    destruct ((validateResponse this res tr1).1) as [[|]| |].
    + destruct (putInCache_shape request res tr1) as [(Hput & _)|(c & Hput & _ & Hh)];
        rewrite Hput in Hrun.
      * rewrite Hrun. discriminate.
      * destruct c as [[]| |]; rewrite Hrun; try discriminate; [apply Hfb|].
        exfalso. exact (Ho _ (Hh eq_refl)).
    + rewrite Hrun. discriminate.
    + rewrite Hrun. apply Hfb.
    + contradiction.
  - rewrite Hrun. apply Hfb.
  - exfalso. destruct (net_fetch w request) as [[tf o]|]; simpl in Hp; [|discriminate].
    destruct (Qle_bool tf _); discriminate.
Qed.

(** X14.  The [catch] block of [handleRequest] is not guarded: after a
    failed fetch or a timeout, an error that [openCache()] or
    [cache.match()] throws is what the caller gets, in place of the
    error of the network (which is dropped) and of the error "No
    response received from fetch: Timeout". *)
Theorem fallback_errors_reach_the_caller request (t : Q) e tr1 :
  run (fetchWithTimeout w this request) = (Return (Some (t, Rejected e)), tr1) ->
  (forall e', open_cache w 0 = Throw e' ->
     run (handleRequest w this request) = (Throw e', tr1 ++ [EvOpenCache]))
  /\ (forall cache e', open_cache w 0 = Return cache ->
       match_result cache request = Throw e' ->
       run (handleRequest w this request) = (Throw e', tr1 ++ [EvOpenCache; EvMatch request])).
Proof.
  intros Hf.
  destruct (handleRequest_runs request) as (p & tr1' & Hf' & _ & Hc & _ & Hrun).
  rewrite Hf in Hf'. injection Hf' as <- <-.
  split.
  - intros e' Ho. rewrite Hrun.
    destruct (fallback_shape request tr1) as [(e0 & H & ->)|[[H _]|(cache & H & _)]];
      rewrite Hc, Ho in H; congruence.
  - intros cache e' Ho Hm. rewrite Hrun.
    destruct (fallback_shape request tr1) as [(e0 & H & _)|[[H _]|(cache' & H & ->)]];
      rewrite Hc, Ho in H; try congruence.
    injection H as <-. now rewrite Hm.
Qed.

(** X15.  A response that arrived in time and that [validateResponse]
    refuses is returned as it arrived, and the cache is not touched: it
    is neither opened nor read nor written. *)
Theorem refused_response_bypasses_cache request (t : Q) res tr1 :
  run (fetchWithTimeout w this request) = (Return (Some (t, Fulfilled res)), tr1) ->
  (validateResponse this res tr1).1 = Return false ->
  run (handleRequest w this request) = (Return res, tr1)
  /\ count_opens tr1 = 0%nat /\ puts tr1 = []
  /\ Forall (fun ev => ev <> EvMatch request) tr1.
Proof.
  intros Hf Hv.
  destruct (handleRequest_runs request) as (p & tr1' & Hf' & Hp & Hc & _ & Hrun).
  rewrite Hf in Hf'. injection Hf' as <- <-. rewrite Hv in Hrun.
  split; [exact Hrun|]. split; [exact Hc|]. split; [exact Hp|].
  unfold run in Hf. destruct (neq_Infinity (networkTimeoutSeconds this)) eqn:E.
  - rewrite (fetchWithTimeout_timer w this request [] E) in Hf. injection Hf as _ <-.
    repeat constructor; discriminate.
  - apply neq_Infinity_false in E.
    rewrite (fetchWithTimeout_no_timer w this request [] E) in Hf. injection Hf as _ <-.
    repeat constructor; discriminate.
Qed.

(** X16.  For a response that arrived in time, that [validateResponse]
    accepts and of which the constructor of [Response] builds a copy,
    once the cache has opened: what [handleRequest] returns is the
    response object that [fetch] delivered (its headers carry no
    timestamp), and what it hands to [cache.put] under the request is a
    copy with the same status and status text, the headers followed by
    the timestamp header, and the very body of the response returned.
    The two share one stream ([response.body] is passed on, not cloned);
    what reading the one does to the other is beyond this model.  The
    cache is opened once and not read. *)
Theorem accepted_response_is_returned_and_cached request (t : Q) res tr1 cache :
  run (fetchWithTimeout w this request) = (Return (Some (t, Fulfilled res)), tr1) ->
  (validateResponse this res tr1).1 = Return true ->
  copyable res = true ->
  open_cache w 0 = Return cache ->
  exists copy,
    run (handleRequest w this request)
    = (Return res, tr1 ++ [EvOpenCache; EvPut request copy])
    /\ body copy = body res
    /\ status copy = status res
    /\ statusText copy = statusText res
    /\ headers copy
       = headers_append (headers res) CACHE_TIMESTAMP_HEADER (pretty (date_now w)).
Proof.
  intros Hf Hv Hcopy Ho. exists (timestamped w res).
  split; [|repeat split].
  destruct (handleRequest_runs request) as (p & tr1' & Hf' & _ & Hc & _ & Hrun).
  rewrite Hf in Hf'. injection Hf' as <- <-. rewrite Hv in Hrun.
  destruct (putInCache_shape request res tr1) as [(Hput & _)|(c & Hput & Hne & _)].
  - now rewrite Hput in Hrun.
  - exfalso. unfold putInCache in Hput.
    assert (Hopen : openCache w tr1 = (Return cache, tr1 ++ [EvOpenCache])).
    { unfold openCache. now rewrite Hc, Ho. }
    rewrite (QueueStoreLaws.bind_Return _ _ _ _ _ Hopen) in Hput.
    pose proof (addTimestampHeader_run res (tr1 ++ [EvOpenCache])) as Ha.
    rewrite Hcopy in Ha. rewrite (QueueStoreLaws.bind_Return _ _ _ _ _ Ha) in Hput.
    unfold bind, cache_put, emit, bind, ret in Hput. simpl in Hput.
    injection Hput as <- _. now apply Hne.
Qed.

(** X17.  The required headers are checked in the order of the policy,
    and the first one that does not have its value decides: when
    [headers.get] throws on it, [validateResponse] throws (also for a
    response whose status is not allowed: the status does not cut the
    header check short); when it has another value or is missing,
    [validateResponse] returns false, without looking at the headers
    after it. *)
Theorem first_failing_header_decides response tr o pre k v post :
  cacheableResponse this = CR_options o ->
  cr_headers o = Some (pre ++ (k, v) :: post) ->
  Forall (fun kv => headers_get (headers response) kv.1 = Return (Some kv.2)) pre ->
  (forall e, headers_get (headers response) k = Throw e ->
     validateResponse this response tr = (Throw e, tr))
  /\ (forall x, headers_get (headers response) k = Return x -> x <> Some v ->
       validateResponse this response tr = (Return false, tr)).
Proof.
  intros Hpol Hh Hpre.
  assert (Hlen : (0 <? List.length (pre ++ (k, v) :: post))%nat = true).
  { rewrite List.length_app. simpl. apply Nat.ltb_lt. lia. }
  assert (Hthrow : forall e, headers_get (headers response) k = Throw e ->
            every_header response (pre ++ (k, v) :: post) tr = (Throw e, tr)).
  { intros e He. clear Hh Hlen. induction Hpre as [|[k0 v0] pre' Hk0 _ IH]; simpl.
    - unfold bind, lift. now rewrite He.
    - unfold bind, lift. simpl in Hk0. rewrite Hk0. simpl. now rewrite String.eqb_refl. }
  assert (Hfalse : forall x, headers_get (headers response) k = Return x -> x <> Some v ->
            every_header response (pre ++ (k, v) :: post) tr = (Return false, tr)).
  { intros x Hx Hne. clear Hh Hlen Hthrow. induction Hpre as [|[k0 v0] pre' Hk0 _ IH]; simpl.
    - unfold bind, lift. rewrite Hx. simpl. destruct x as [v'|]; [|reflexivity].
      destruct (String.eqb_spec v' v); [congruence|reflexivity].
    - unfold bind, lift. simpl in Hk0. rewrite Hk0. simpl. now rewrite String.eqb_refl. }
  split.
  - intros e He. unfold validateResponse. rewrite Hpol, Hh. cbv zeta. cbn [default from_option id].
    rewrite Hlen. unfold bind. now rewrite (Hthrow e He).
  - intros x Hx Hne. unfold validateResponse. rewrite Hpol, Hh. cbv zeta. cbn [default from_option id].
    rewrite Hlen. unfold bind. rewrite (Hfalse x Hx Hne). unfold ret.
    now rewrite andb_false_r.
Qed.

End Laws.

(** *** Runs in the demo worlds *)

#[local] Existing Instance demo_platform.

Lemma demo_headers_get_settles (h : list (string * string)) (k : string) :
  demo_headers_get h k <> Hang.
Proof. unfold demo_headers_get. destruct (String.eqb k ""); discriminate. Qed.

Lemma demo_silent_cache_settles :
  (forall n, open_cache (demo_silent demo_full_cache) n <> Hang)
  /\ (forall n cache, open_cache (demo_silent demo_full_cache) n = Return cache ->
        match_result cache "/a" <> Hang).
Proof.
  split.
  - intros n. discriminate.
  - intros n cache [= <-]. discriminate.
Qed.

Lemma demo_no_cache_rejects :
  run (fetchWithTimeout (demo_no_cache 5) demo_strategy "/a")
  = (Return (Some (5%Q, Rejected (TypeError "Failed to fetch"))),
     [EvSetTimeout (mul_1000 (Finite 10)); EvFetch "/a"]).
Proof. vm_compute. reflexivity. Qed.

Lemma demo_server_error_arrives :
  run (fetchWithTimeout (demo_online 50 demo_server_error demo_empty_cache)
         demo_strategy_200 "/a")
  = (Return (Some (50%Q, Fulfilled demo_server_error)),
     [EvSetTimeout (mul_1000 (Finite 10)); EvFetch "/a"]).
Proof. vm_compute. reflexivity. Qed.

Lemma handleRequest_settles_witness :
  (run (handleRequest (demo_silent demo_full_cache) demo_strategy "/a")).1 <> Hang.
Proof.
  exact (handleRequest_settles (demo_silent demo_full_cache) demo_strategy "/a" eq_refl
           (proj1 demo_silent_cache_settles) (proj2 demo_silent_cache_settles)
           demo_headers_get_settles).
Defined.

Lemma fallback_errors_reach_the_caller_witness :
  run (handleRequest (demo_no_cache 5) demo_strategy "/a")
  = (Throw (mkError "SecurityError" "cache storage is not available"),
     [EvSetTimeout (mul_1000 (Finite 10)); EvFetch "/a"; EvOpenCache]).
Proof.
  exact (proj1 (fallback_errors_reach_the_caller (demo_no_cache 5) demo_strategy "/a" 5%Q _ _
                  demo_no_cache_rejects) _ eq_refl).
Defined.

Lemma refused_response_bypasses_cache_witness :
  run (handleRequest (demo_online 50 demo_server_error demo_empty_cache) demo_strategy_200 "/a")
  = (Return demo_server_error, [EvSetTimeout (mul_1000 (Finite 10)); EvFetch "/a"]).
Proof.
  exact (proj1 (refused_response_bypasses_cache
                  (demo_online 50 demo_server_error demo_empty_cache) demo_strategy_200 "/a"
                  50%Q _ _ demo_server_error_arrives eq_refl)).
Defined.

Lemma accepted_response_is_returned_and_cached_witness :
  exists copy,
    run (handleRequest (demo_online 50 demo_ok demo_empty_cache) demo_strategy "/a")
    = (Return demo_ok,
       [EvSetTimeout (mul_1000 (Finite 10)); EvFetch "/a"; EvOpenCache; EvPut "/a" copy])
    /\ body copy = Some "<html>"
    /\ headers copy = [("content-type", "text/html"); ("sw-cache-timestamp", "1700000000000")].
Proof.
  destruct (accepted_response_is_returned_and_cached
              (demo_online 50 demo_ok demo_empty_cache) demo_strategy "/a" 50%Q _ _
              demo_empty_cache demo_ok_arrives eq_refl eq_refl eq_refl)
    as (copy & Hrun & Hb & _ & _ & Hh).
  exists copy. split; [exact Hrun|]. split; [exact Hb|exact Hh].
Defined.

Lemma first_failing_header_decides_witness :
  validateResponse demo_strategy_bad_header demo_server_error []
  = (Throw (TypeError "invalid header name"), [])
  /\ validateResponse demo_strategy_headers demo_ok [] = (Return false, []).
Proof.
  split.
  - refine (proj1 (first_failing_header_decides demo_strategy_bad_header demo_server_error []
                     _ [] "" "x" [("content-type", "text/html")] eq_refl eq_refl _) _ eq_refl).
    constructor.
  - refine (proj2 (first_failing_header_decides demo_strategy_headers demo_ok []
                     _ [("content-type", "text/html")] "x-cache" "yes" [] eq_refl eq_refl _)
                  None eq_refl _).
    + repeat constructor.
    + discriminate.
Defined.

End NetworkFirstLaws.
